(** * Bankalgoritmerna: three account stores, the bank in front of them,
    and the fixed-capacity queue of [main.cpp].

    The development embeds [src/main.cpp] shallowly:

    - [std::string] is [string]; [operator==] and [operator<] are
      [String.eqb] and [String.ltb] (lexicographic on unsigned characters,
      a proper prefix first), as [std::char_traits<char>] compares.
    - [float balance] is a primitive float. The program only stores and
      copies balances; no arithmetic is ever done on them, and the only
      values below (0, 1 and 2) are the same in every binary format.
    - [int] is a 32-bit two's complement integer and [size_t] a 64-bit
      unsigned one (LP64). Values live in [Z]; every narrowing and every
      signed operation is written out.
    - a member function is a computation [M St A] over the object's fields
      [St]: it ends with a value, or with a [fault] where the C++ program
      has undefined behaviour.
    - a [BankAccount*] is the place it points to inside the store, [None]
      for [nullptr]; [deref] reads the record behind it.
    - a cell of the queue's array [T data[Capacity]] is an [option T]:
      the array has no initialiser, so a cell of a scalar [T] holds an
      indeterminate value, [None], until a push stores an element in it,
      and reading such a cell is a [fault]. *)

From Stdlib Require Import PrimFloat Ascii String.
From stdpp Require Import base numbers option list sorting fin vector gmap strings pretty.

Local Open Scope Z_scope.

(** ** Outcomes of a member function *)

Inductive fault : Type :=
  | OutOfRange (index : Z)  (* subscript outside a built-in array or a vector *)
  | IndeterminateValue (index : Z)  (* read of an array cell nothing was stored in *)
  | SignedOverflow          (* an [int] operation left the range of [int] *)
  | DivisionByZero          (* [%] with a zero right operand *)
  | OutOfFuel.              (* the loop model was given too few iterations *)

Inductive result (A : Type) : Type :=
  | Ok (a : A)
  | Fault (f : fault).
Arguments Ok {A} a.
Arguments Fault {A} f.

#[global] Instance result_ret : MRet result := @Ok.
#[global] Instance result_bind : MBind result := λ A B f r,
  match r with
  | Ok a => f a
  | Fault e => Fault e
  end.

(** State passing: the fields before, the fields after and the outcome.
    After a fault the fields are the ones at the faulting statement. *)
Definition M (St A : Type) : Type := St → St * result A.

#[global] Instance M_ret {St} : MRet (M St) := λ A a s, (s, Ok a).
#[global] Instance M_bind {St} : MBind (M St) := λ A B f m s,
  match m s with
  | (s', Ok a) => f a s'
  | (s', Fault e) => (s', Fault e)
  end.

Definition get {St} : M St St := λ s, (s, Ok s).
Definition put {St} (s' : St) : M St unit := λ _, (s', Ok tt).
Definition lift {St A} (r : result A) : M St A := λ s, (s, r).

(** ** Machine integers *)

Definition INT_MIN : Z := - 2 ^ 31.
Definition INT_MAX : Z := 2 ^ 31 - 1.

(** The value of an [int] expression: a fault when it is not
    representable (signed overflow is undefined). *)
Definition int_expr (z : Z) : result Z :=
  if (INT_MIN <=? z) && (z <=? INT_MAX) then Ok z else Fault SignedOverflow.

(** Unsigned 64-bit arithmetic wraps. *)
Definition size_t_expr (z : Z) : Z := z mod 2 ^ 64.

(** [a % b] on [size_t]. *)
Definition size_t_rem (a b : Z) : result Z :=
  if b =? 0 then Fault DivisionByZero else Ok (a mod b).

(** [size_t] to [int]: the value modulo [2^32], read as two's complement. *)
Definition int_of_size_t (z : Z) : Z := (z + 2 ^ 31) mod 2 ^ 32 - 2 ^ 31.

(** ** Characters and strings *)

(** Integral promotion of a [char] ([char] is signed). *)
Definition int_of_char (c : ascii) : Z :=
  let n := Z.of_N (N_of_ascii c) in
  if n <? 128 then n else n - 256.

(** [s[0]]: the first character, the terminating null character for the
    empty string. *)
Definition string_front (s : string) : ascii :=
  match s with
  | String c _ => c
  | EmptyString => "000"%char
  end.

(** [v[i]] on a [std::vector]. *)
Definition vector_at {A} (v : list A) (i : Z) : result A :=
  match (if 0 <=? i then v !! Z.to_nat i else None) with
  | Some a => Ok a
  | None => Fault (OutOfRange i)
  end.

(** ** BankAccount *)

Record BankAccount : Type := mkBankAccount {
  accountNumber : string;
  balance : float;
}.

Definition getAccountNumber (this : BankAccount) : string := accountNumber this.

(** [BankAccount(std::string accountNumber, float balance = 0)] used as a
    converting constructor. *)
Definition BankAccount_of_string (accountNumber : string) : BankAccount :=
  mkBankAccount accountNumber 0%float.

(** ** IAccountStorage *)

Class IAccountStorage (St : Type) : Type := {
  ptr : Type;
  addAccount : BankAccount → M St unit;
  findAccount : string → M St (option ptr);
  (* reading through a returned pointer *)
  deref : St → ptr → option BankAccount;
}.
Arguments ptr St {_}.

(** What a caller sees behind the pointer that [findAccount] returns. *)
Definition lookup_account `{IAccountStorage St} (accountNumber : string) (s : St)
    : result (option BankAccount) :=
  match findAccount accountNumber s with
  | (s', Ok (Some p)) => Ok (deref s' p)
  | (_, Ok None) => Ok None
  | (_, Fault e) => Fault e
  end.

(** The fields after a call and its outcome. *)
Definition state_after {St A} (m : M St A) (s : St) : St := fst (m s).
Definition outcome {St A} (m : M St A) (s : St) : result A := snd (m s).

(** Adding the records of a list one after the other, from left to right. *)
Fixpoint addAccounts `{IAccountStorage St} (l : list BankAccount) : M St unit :=
  match l with
  | [] => mret tt
  | account :: l' => addAccount account;; addAccounts l'
  end.

(** ** Bank *)

Module Bank.
Section Bank.
Context `{IAccountStorage St}.

Definition addAccount (accountNumber : string) : M St bool :=
  addAccount (BankAccount_of_string accountNumber);;
  mret true.

Definition getAccount (accountNumber : string) : M St (option (ptr St)) :=
  findAccount accountNumber.
End Bank.
End Bank.

(** ** MapAccountStorage *)

Module MapAccountStorage.
(** The only field: [std::map<std::string, BankAccount> accounts]. A
    pointer to a mapped value is named by the key of its node. *)

Definition addAccount (account : BankAccount) : M (gmap string BankAccount) unit :=
  accounts ← get;
  put (<[getAccountNumber account := account]> accounts).

Definition findAccount (accountNumber : string)
    : M (gmap string BankAccount) (option string) :=
  accounts ← get;
  match accounts !! accountNumber with
  | Some _ => mret (Some accountNumber)
  | None => mret None
  end.

#[global] Instance storage : IAccountStorage (gmap string BankAccount) :=
  Build_IAccountStorage _ string addAccount findAccount
    (λ accounts p, accounts !! p).

Definition empty : gmap string BankAccount := ∅.
End MapAccountStorage.

(** ** DistributedVectorAccountStorage *)

Module DistributedVectorAccountStorage.
(** The only field: [std::vector<BankAccount> accounts[10]]. A reference
    to one of the ten vectors is its index; a pointer to an element is
    the index of its vector and its position there. *)

(** The places of the built-in array [accounts]. *)
Definition array_place (index : Z) : option (fin 10) :=
  match index with
  | 0 => Some 0%fin | 1 => Some 1%fin | 2 => Some 2%fin | 3 => Some 3%fin
  | 4 => Some 4%fin | 5 => Some 5%fin | 6 => Some 6%fin | 7 => Some 7%fin
  | 8 => Some 8%fin | 9 => Some 9%fin
  | _ => None
  end.

Definition getRef (firstChar : ascii) : result (fin 10) :=
  let index := int_of_char firstChar - int_of_char "0" in
  match array_place index with
  | Some ref => Ok ref
  | None => Fault (OutOfRange index)
  end.

Definition addAccount (account : BankAccount) : M (vec (list BankAccount) 10) unit :=
  let firstChar := string_front (getAccountNumber account) in
  ref ← lift (getRef firstChar);
  accounts ← get;
  put (vinsert ref (accounts !!! ref ++ [account]) accounts).

(** The range-for loop: the position of the first element whose number
    is [accountNumber], counting from [pos]. *)
Fixpoint scan (ref : list BankAccount) (accountNumber : string) (pos : nat)
    : option nat :=
  match ref with
  | [] => None
  | account :: rest =>
      if String.eqb (getAccountNumber account) accountNumber then Some pos
      else scan rest accountNumber (S pos)
  end.

Definition findAccount (accountNumber : string)
    : M (vec (list BankAccount) 10) (option (fin 10 * nat)) :=
  let firstChar := string_front accountNumber in
  ref ← lift (getRef firstChar);
  accounts ← get;
  mret (pair ref <$> scan (accounts !!! ref) accountNumber 0).

#[global] Instance storage : IAccountStorage (vec (list BankAccount) 10) :=
  Build_IAccountStorage _ (fin 10 * nat) addAccount findAccount
    (λ accounts p, (accounts !!! p.1) !! p.2).

Definition empty : vec (list BankAccount) 10 := vreplicate 10 [].
End DistributedVectorAccountStorage.

(** ** BinarySearchStorage *)

(** The comparison handed to [std::sort]. *)
Definition account_lt (a b : BankAccount) : bool :=
  String.ltb (getAccountNumber a) (getAccountNumber b).

(** Sorted with respect to [account_lt]: no record is [account_lt] an
    earlier one. *)
Definition sorted_by_number (l : list BankAccount) : Prop :=
  StronglySorted (λ a b, account_lt b a = false) l.

(** [std::sort] with [account_lt] is library code. Its contract: the
    result is a rearrangement of the input that is sorted with respect to
    the comparison. The order among accounts with the same number is not
    determined. *)
Class StdSort : Type := {
  std_sort : list BankAccount → list BankAccount;
  std_sort_permutation l : std_sort l ≡ₚ l;
  std_sort_sorted l : sorted_by_number (std_sort l);
}.

Module BinarySearchStorage.
Section BinarySearchStorage.
Context `{StdSort}.
(** The only field: [std::vector<BankAccount> accounts]. A pointer to an
    element is its index. *)

Definition sortAccounts : M (list BankAccount) unit :=
  accounts ← get;
  put (std_sort accounts).

Definition addAccount (account : BankAccount) : M (list BankAccount) unit :=
  accounts ← get;
  put (accounts ++ [account]).

(** The [while] loop, run for at most [fuel] iterations. *)
Fixpoint search (fuel : nat) (accounts : list BankAccount) (accountNumber : string)
    (left right : Z) : result (option nat) :=
  match fuel with
  | O => Fault OutOfFuel
  | S fuel' =>
      if left <=? right then
        width ← int_expr (right - left);
        mid ← int_expr (left + width `quot` 2);
        account ← vector_at accounts mid;
        let midAccountNumber := getAccountNumber account in
        if String.eqb midAccountNumber accountNumber then
          Ok (Some (Z.to_nat mid))
        else if String.ltb midAccountNumber accountNumber then
          left' ← int_expr (mid + 1);
          search fuel' accounts accountNumber left' right
        else
          right' ← int_expr (mid - 1);
          search fuel' accounts accountNumber left right'
      else Ok None
  end.

Definition findAccount (accountNumber : string) : M (list BankAccount) (option nat) :=
  sortAccounts;;
  accounts ← get;
  let size := Z.of_nat (length accounts) in
  let left := 0 in
  let right := int_of_size_t (size_t_expr (size - 1)) in
  lift (search (S (length accounts)) accounts accountNumber left right).

#[global] Instance storage : IAccountStorage (list BankAccount) :=
  Build_IAccountStorage _ nat addAccount findAccount
    (λ accounts p, accounts !! p).

Definition empty : list BankAccount := [].
End BinarySearchStorage.
End BinarySearchStorage.

(** ** Queue *)

Module Queue.
Section Queue.
Context {T : Type}.
(** The template argument [size_t Capacity]. *)
Variable Capacity : Z.

(** The fields: [T data[Capacity]], and [start], [end] and [size] of
    type [size_t]. The array has no initialiser and the class declares no
    constructor, so a cell holds nothing definite ([None]) until
    default-initialisation of [T] or a push puts a value there. *)
Record t : Type := mk {
  data : list (option T);
  start : Z;
  end_ : Z;
  size : Z;
}.

(** A fresh queue. [default] is what default-initialisation leaves in
    every cell: [Some v] for a [T] with a default constructor (and for a
    queue object that is zero- or value-initialised), [None], an
    indeterminate value, for a scalar [T]. *)
Definition init (default : option T) : t :=
  {| data := replicate (Z.to_nat Capacity) default; start := 0; end_ := 0; size := 0 |}.

(** [data[i]] and [data[i] = element] on the built-in array. Reading a
    cell that holds nothing definite is a fault, like a subscript out of
    range. *)
Definition array_load (a : list (option T)) (i : Z) : result T :=
  match (if (0 <=? i) && (i <? Capacity) then a !! Z.to_nat i else None) with
  | Some (Some x) => Ok x
  | Some None => Fault (IndeterminateValue i)
  | None => Fault (OutOfRange i)
  end.

Definition array_store (a : list (option T)) (i : Z) (element : T)
    : result (list (option T)) :=
  if (0 <=? i) && (i <? Capacity) then Ok (<[Z.to_nat i := Some element]> a)
  else Fault (OutOfRange i).

Definition push (element : T) : M t bool :=
  q ← get;
  if size q <? Capacity then
    data' ← lift (array_store (data q) (end_ q) element);
    end' ← lift (size_t_rem (size_t_expr (end_ q + 1)) Capacity);
    put {| data := data'; start := start q; end_ := end';
           size := size_t_expr (size q + 1) |};;
    mret true
  else mret false.

Definition pop : M t T :=
  q ← get;
  frontElement ← lift (array_load (data q) (start q));
  start' ← lift (size_t_rem (size_t_expr (start q + 1)) Capacity);
  put {| data := data q; start := start'; end_ := end_ q;
         size := size_t_expr (size q - 1) |};;
  mret frontElement.

Definition front : M t T :=
  q ← get;
  lift (array_load (data q) (start q)).

Definition getSize : M t Z := q ← get; mret (size q).
Definition isEmpty : M t bool := q ← get; mret (size q =? 0).
Definition isFull : M t bool := q ← get; mret (size q =? Capacity).

(** The states a queue object can be in: a fresh queue, and whatever
    [push] and [pop] make of such a state when they return. *)
Inductive reachable : t → Prop :=
  | reachable_init default : reachable (init default)
  | reachable_push q element b :
      reachable q → outcome (push element) q = Ok b →
      reachable (state_after (push element) q)
  | reachable_pop q x :
      reachable q → outcome pop q = Ok x → reachable (state_after pop q).

(** The states reached when [pop] is only called on a queue that holds
    an element. *)
Inductive orderly : t → Prop :=
  | orderly_init default : orderly (init default)
  | orderly_push q element :
      orderly q → orderly (state_after (push element) q)
  | orderly_pop q :
      orderly q → 0 < size q → orderly (state_after pop q).

(** Cell [i] of the array holds a value. *)
Definition written (a : list (option T)) (i : Z) : Prop :=
  ∃ x, a !! Z.to_nat i = Some (Some x).

(** The elements waiting in the queue, oldest first: [n] cells of the
    array from [i] on, around the end of the array, as far as they hold
    values. *)
Fixpoint cells (a : list (option T)) (i : Z) (n : nat) : list T :=
  match n with
  | O => []
  | S n' =>
      match a !! Z.to_nat i with
      | Some (Some x) => x :: cells a ((i + 1) mod Capacity) n'
      | _ => []
      end
  end.

Definition contents (q : t) : list T := cells (data q) (start q) (Z.to_nat (size q)).

(** What the fields of every queue object satisfy: the array has
    [Capacity] cells, [size] is a [size_t], and [start] and [end] are
    indices into the array (when it has cells at all). *)
Definition well_formed (q : t) : Prop :=
  length (data q) = Z.to_nat Capacity
  ∧ 0 ≤ size q < 2 ^ 64
  ∧ 0 ≤ start q ∧ 0 ≤ end_ q
  ∧ (0 < Capacity → start q < Capacity ∧ end_ q < Capacity).

(** Which cells hold values: all of them, or, before [end] has gone round
    the array once, the cells before [end] and no other. In the second
    case the waiting elements are the cells from [start] up to [end]. *)
Definition filled (q : t) : Prop :=
  (∀ i, 0 ≤ i < Capacity → written (data q) i)
  ∨ (end_ q < Capacity ∧ start q ≤ end_ q ∧ size q = end_ q - start q
     ∧ (∀ i, 0 ≤ i < end_ q → written (data q) i)
     ∧ (∀ i, end_ q ≤ i < Capacity → data q !! Z.to_nat i = Some None)).
End Queue.
End Queue.

Arguments Queue.t : clear implicits.

(** ** The driver's loop *)

(** [while (accountNumber.size() < 10) accountNumber = "0" + accountNumber]:
    every round makes the string longer, so ten rounds are enough. *)
Fixpoint pad (fuel : nat) (accountNumber : string) : string :=
  match fuel with
  | O => accountNumber
  | S fuel' =>
      if (String.length accountNumber <? 10)%nat
      then pad fuel' (String "0" accountNumber)
      else accountNumber
  end.

(** [std::to_string(i + 1)], padded. *)
Definition padded_number (i : Z) : string := pad 10 (pretty (i + 1)).

(** [for (int i = 0; i < AntalAccounts; i++) bank.addAccount(...)], with
    [count] rounds left to go from [i]. *)
Fixpoint initialize `{IAccountStorage St} (count : nat) (i : Z) : M St unit :=
  match count with
  | O => mret tt
  | S count' => Bank.addAccount (padded_number i);; initialize count' (i + 1)
  end.

(** ** Words of the specification *)

(** The decimal digit a string starts with, if it starts with one. *)
Definition leading_digit (s : string) : option nat := Ascii.is_nat (string_front s).

Definition digit_leading (s : string) : Prop := is_Some (leading_digit s).

(** The records of [l] that belong in bucket [i]. *)
Definition bucket_of (i : fin 10) (l : list BankAccount) : list BankAccount :=
  filter (λ a, leading_digit (getAccountNumber a) = Some (fin_to_nat i)) l.

(** The records of [l] with number [k], in the order of [l]. *)
Definition with_number (k : string) (l : list BankAccount) : list BankAccount :=
  filter (λ a, getAccountNumber a = k) l.

(** A store too large for an [int] index: [2^31 + 1] records with
    pairwise distinct numbers made of the digits 0 and 1 (a zero, then the
    binary numeral of the position, lowest bit first). *)
Definition many : nat := Z.to_nat (2 ^ 31 + 1).

Fixpoint binary (p : positive) : string :=
  match p with
  | xH => "1"
  | xO p' => String "0" (binary p')
  | xI p' => String "1" (binary p')
  end.

Definition numbered (i : nat) : BankAccount :=
  BankAccount_of_string (String "0" (binary (Pos.of_succ_nat i))).

Definition many_accounts : list BankAccount := numbered <$> seq 0 many.

(** A store whose last index is [INT_MAX]: the first [2^31] of them. *)
Definition full : nat := Z.to_nat (2 ^ 31).

Definition full_accounts : list BankAccount := numbered <$> seq 0 full.

(** ** Sample records *)

Definition one_first : BankAccount := mkBankAccount "1" 1%float.
Definition one_second : BankAccount := mkBankAccount "1" 2%float.
Definition one_zero : BankAccount := BankAccount_of_string "1".
Definition two_zero : BankAccount := BankAccount_of_string "25".

(** ** The bank in use *)

(** [Bank::addAccount] called for each number of a list, in order. *)
Fixpoint bank_fill `{IAccountStorage St} (numbers : list string) : M St unit :=
  match numbers with
  | [] => mret tt
  | accountNumber :: rest => Bank.addAccount accountNumber;; bank_fill rest
  end.

(** ** The queue in use *)

(** Pushing the elements of a list one after the other; the results of the
    pushes, in order. *)
Fixpoint push_all {T} (Capacity : Z) (elements : list T) : M (Queue.t T) (list bool) :=
  match elements with
  | [] => mret []
  | element :: rest =>
      b ← Queue.push Capacity element;
      bs ← push_all Capacity rest;
      mret (b :: bs)
  end.

(** [n] pops one after the other; the elements they return, in order. *)
Fixpoint pop_n {T} (Capacity : Z) (n : nat) : M (Queue.t T) (list T) :=
  match n with
  | O => mret []
  | S n' =>
      x ← Queue.pop Capacity;
      xs ← pop_n Capacity n';
      mret (x :: xs)
  end.

(** Any run of calls on a queue object. *)
Inductive queue_call (T : Type) : Type :=
  | CallPush (element : T)
  | CallPop
  | CallFront.
Arguments CallPush {T} element.
Arguments CallPop {T}.
Arguments CallFront {T}.

Fixpoint calls {T} (Capacity : Z) (l : list (queue_call T)) : M (Queue.t T) unit :=
  match l with
  | [] => mret tt
  | CallPush element :: l' => Queue.push Capacity element;; calls Capacity l'
  | CallPop :: l' => Queue.pop Capacity;; calls Capacity l'
  | CallFront :: l' => Queue.front Capacity;; calls Capacity l'
  end.

(** ** The driver as a whole *)

(** [n] zeros. *)
Fixpoint zeros (n : nat) : string :=
  match n with
  | O => ""
  | S n' => String "0" (zeros n')
  end.

(** Made of decimal digits only. *)
Fixpoint digits_only (s : string) : bool :=
  match s with
  | EmptyString => true
  | String c s' => bool_decide (is_Some (Ascii.is_nat c)) && digits_only s'
  end.

(** A string that does not start with the digit zero but with another
    digit. *)
Definition leads_nonzero (s : string) : Prop :=
  ∃ c s', s = String c s' ∧ c ≠ "0"%char ∧ is_Some (Ascii.is_nat c).

(** The numbers the loop hands to the bank, in order: [count] of them,
    for [i], [i + 1], ... *)
Definition driver_numbers (count : nat) (i : Z) : list string :=
  (λ j : nat, padded_number (i + Z.of_nat j)) <$> seq 0 count.

Definition AntalAccounts : Z := 1000000.
Definition sFirst : string := "0000000001".
Definition sLast : string := pad 10 (pretty AntalAccounts).
Definition sNotFound : string := "notfound".

(** How [main] ends: it returns 0 after printing the numbers behind the
    first two pointers, or it dereferences a pointer that is null (or
    points at nothing), or a call faults. The times it prints are left
    out. *)
Inductive main_outcome : Type :=
  | Returned (printedFirst printedLast : string)
  | BadDereference
  | Faulted (f : fault).

(** [p->getAccountNumber()] on the pointer [p] just returned. *)
Definition arrow_getAccountNumber `{IAccountStorage St} (s : St) (p : option (ptr St))
    : option string :=
  p' ← p; account ← deref s p'; Some (getAccountNumber account).

(** [main], on the store object it declares. *)
Definition main `{IAccountStorage St} (storage : St) : main_outcome :=
  match initialize (Z.to_nat AntalAccounts) 0 storage with
  | (_, Fault e) => Faulted e
  | (s0, Ok _) =>
      match Bank.getAccount sFirst s0 with
      | (_, Fault e) => Faulted e
      | (s1, Ok p1) =>
          match arrow_getAccountNumber s1 p1 with
          | None => BadDereference
          | Some printedFirst =>
              match Bank.getAccount sLast s1 with
              | (_, Fault e) => Faulted e
              | (s2, Ok p2) =>
                  match arrow_getAccountNumber s2 p2 with
                  | None => BadDereference
                  | Some printedLast =>
                      match Bank.getAccount sNotFound s2 with
                      | (_, Fault e) => Faulted e
                      | (_, Ok _) => Returned printedFirst printedLast
                      end
                  end
              end
          end
      end
  end.

(** * Properties *)

(** ** Strings *)

Lemma eqb_true_iff (s1 s2 : string) : String.eqb s1 s2 = true ↔ s1 = s2.
Proof. apply String.eqb_eq. Qed.

Lemma eqb_false_iff (s1 s2 : string) : String.eqb s1 s2 = false ↔ s1 ≠ s2.
Proof. apply String.eqb_neq. Qed.

Lemma compare_refl_Eq (s : string) : (s ?= s)%string = Eq.
Proof.
  induction s as [|c s IH]; simpl; [done|].
  unfold Ascii.compare. by rewrite N.compare_refl.
Qed.

Lemma ltb_irrefl (s : string) : String.ltb s s = false.
Proof. unfold String.ltb. by rewrite compare_refl_Eq. Qed.

(** [s2 < s1] fails exactly when [s1 <= s2]. *)
Lemma ltb_false_le (s1 s2 : string) : String.ltb s2 s1 = false ↔ String.le s1 s2.
Proof.
  unfold String.le, String.ltb, String.leb.
  rewrite (String.compare_antisym s1 s2).
  destruct (s2 ?= s1)%string; simpl; split; intros; done.
Qed.

Lemma ltb_true_le (s1 s2 : string) : String.ltb s1 s2 = true → String.le s1 s2.
Proof.
  unfold String.le, String.ltb, String.leb.
  destruct (s1 ?= s2)%string; intros; done.
Qed.

Lemma ltb_true_ne (s1 s2 : string) : String.ltb s1 s2 = true → s1 ≠ s2.
Proof. intros Hlt ->. by rewrite ltb_irrefl in Hlt. Qed.

(** Trichotomy, as the binary search branches. *)
Lemma ltb_trichotomy (s1 s2 : string) :
  String.eqb s1 s2 = false → String.ltb s1 s2 = false → String.ltb s2 s1 = true.
Proof.
  rewrite eqb_false_iff. unfold String.ltb.
  rewrite (String.compare_antisym s2 s1).
  destruct (s1 ?= s2)%string eqn:Hc; simpl; try done.
  intros Hne. by apply String.compare_eq_iff in Hc.
Qed.

Lemma le_ltb_trans (s1 s2 s3 : string) :
  String.le s1 s2 → String.ltb s2 s3 = true → String.ltb s1 s3 = true.
Proof.
  intros H12 H23.
  destruct (String.ltb s1 s3) eqn:H13; [done|].
  apply ltb_false_le in H13.
  assert (String.le s3 s2) as H32 by (by etrans).
  apply ltb_false_le in H32. congruence.
Qed.

Lemma ltb_le_trans (s1 s2 s3 : string) :
  String.ltb s1 s2 = true → String.le s2 s3 → String.ltb s1 s3 = true.
Proof.
  intros H12 H23.
  destruct (String.ltb s1 s3) eqn:H13; [done|].
  apply ltb_false_le in H13.
  assert (String.le s2 s1) as H21 by (by etrans).
  apply ltb_false_le in H21. congruence.
Qed.

(** ** The three stores, one call at a time *)

(** Running a computation of [M] on given fields. *)
Ltac run_M :=
  unfold mbind, M_bind, mret, M_ret, get, put, lift; cbn.

Section map_storage.
Implicit Types (accounts : gmap string BankAccount) (account : BankAccount).

Lemma map_addAccount_run accounts account :
  addAccount account accounts
  = (<[getAccountNumber account := account]> accounts, Ok tt).
Proof. reflexivity. Qed.

Lemma map_findAccount_run accounts k :
  findAccount k accounts = (accounts, Ok ((λ _, k) <$> accounts !! k)).
Proof.
  cbn. unfold MapAccountStorage.findAccount. run_M.
  by destruct (accounts !! k).
Qed.

Lemma map_lookup_account accounts k : lookup_account k accounts = Ok (accounts !! k).
Proof.
  unfold lookup_account. rewrite map_findAccount_run.
  by destruct (accounts !! k) eqn:E; cbn; rewrite ?E.
Qed.

(** After a list of adds the map holds, under each number, the record
    added last with that number. *)
Lemma map_addAccounts_run l accounts :
  addAccounts l accounts
  = (foldl (λ m a, <[getAccountNumber a := a]> m) accounts l, Ok tt).
Proof.
  revert accounts. induction l as [|a l IH]; intros accounts; [done|].
  cbn -[addAccount]. unfold mbind, M_bind.
  rewrite map_addAccount_run. apply IH.
Qed.
End map_storage.

Section distributed_storage.
Implicit Types (accounts : vec (list BankAccount) 10) (account : BankAccount).
Implicit Types (ref : fin 10) (l : list BankAccount) (k : string).

(** [getRef] succeeds exactly on the ten digits, with the digit as index. *)
Lemma getRef_is_nat (c : ascii) :
  match DistributedVectorAccountStorage.getRef c with
  | Ok ref => Ascii.is_nat c = Some (fin_to_nat ref)
  | Fault e => Ascii.is_nat c = None ∧ e = OutOfRange (int_of_char c - 48)
  end.
Proof. destruct c as [[] [] [] [] [] [] [] []]; vm_compute; done. Qed.

Lemma getRef_Ok (c : ascii) ref :
  DistributedVectorAccountStorage.getRef c = Ok ref
  ↔ Ascii.is_nat c = Some (fin_to_nat ref).
Proof.
  pose proof (getRef_is_nat c) as Hc.
  destruct (DistributedVectorAccountStorage.getRef c) as [ref'|e].
  - split; [by intros [= ->]|].
    rewrite Hc. intros [= Heq]. by apply (inj fin_to_nat) in Heq as ->.
  - destruct Hc as [-> _]. done.
Qed.

Lemma getRef_digit k :
  digit_leading k →
  ∃ ref, DistributedVectorAccountStorage.getRef (string_front k) = Ok ref
         ∧ leading_digit k = Some (fin_to_nat ref).
Proof.
  intros [d Hd]. unfold leading_digit in *.
  pose proof (getRef_is_nat (string_front k)) as Hc.
  destruct (DistributedVectorAccountStorage.getRef _) as [ref|e]; [by eauto|].
  destruct Hc as [Hc _]. congruence.
Qed.

Lemma getRef_no_digit k :
  ¬ digit_leading k →
  DistributedVectorAccountStorage.getRef (string_front k)
  = Fault (OutOfRange (int_of_char (string_front k) - 48)).
Proof.
  intros Hk. unfold digit_leading, leading_digit in *.
  pose proof (getRef_is_nat (string_front k)) as Hc.
  destruct (DistributedVectorAccountStorage.getRef _) as [ref|e].
  - destruct Hk. by eexists.
  - by destruct Hc as [_ ->].
Qed.

Lemma dv_addAccount_run accounts account ref :
  DistributedVectorAccountStorage.getRef (string_front (getAccountNumber account)) = Ok ref →
  addAccount account accounts
  = (vinsert ref (accounts !!! ref ++ [account]) accounts, Ok tt).
Proof.
  intros Href. cbn. unfold DistributedVectorAccountStorage.addAccount.
  run_M. by rewrite Href.
Qed.

Lemma dv_addAccount_fault accounts account e :
  DistributedVectorAccountStorage.getRef (string_front (getAccountNumber account)) = Fault e →
  addAccount account accounts = (accounts, Fault e).
Proof.
  intros Href. cbn. unfold DistributedVectorAccountStorage.addAccount.
  run_M. by rewrite Href.
Qed.

Lemma dv_findAccount_run accounts k ref :
  DistributedVectorAccountStorage.getRef (string_front k) = Ok ref →
  findAccount k accounts
  = (accounts,
     Ok (pair ref <$> DistributedVectorAccountStorage.scan (accounts !!! ref) k 0)).
Proof.
  intros Href. cbn. unfold DistributedVectorAccountStorage.findAccount.
  run_M. by rewrite Href.
Qed.

Lemma dv_findAccount_fault accounts k e :
  DistributedVectorAccountStorage.getRef (string_front k) = Fault e →
  findAccount k accounts = (accounts, Fault e).
Proof.
  intros Href. cbn. unfold DistributedVectorAccountStorage.findAccount.
  run_M. by rewrite Href.
Qed.

(** The loop is a search for the first element with the number. *)
Lemma scan_list_find l k pos :
  DistributedVectorAccountStorage.scan l k pos
  = (λ p, (pos + p.1)%nat) <$> list_find (λ a, getAccountNumber a = k) l.
Proof.
  revert pos. induction l as [|a l IH]; intros pos; [done|].
  cbn. destruct (String.eqb_spec (getAccountNumber a) k) as [Heq|Hne].
  - rewrite decide_True by done. cbn. f_equal. lia.
  - rewrite decide_False by done. rewrite IH.
    destruct (list_find _ l) as [[j x]|]; cbn; [|done]. f_equal. lia.
Qed.

Lemma scan_Some l k p :
  DistributedVectorAccountStorage.scan l k 0 = Some p
  ↔ ∃ a, l !! p = Some a ∧ getAccountNumber a = k
         ∧ ∀ j b, l !! j = Some b → (j < p)%nat → getAccountNumber b ≠ k.
Proof.
  rewrite scan_list_find. split.
  - destruct (list_find _ l) as [[j x]|] eqn:Hf; [|done].
    cbn. intros [= <-]. apply list_find_Some in Hf. eauto.
  - intros (a & Ha & Hk & Hfirst).
    assert (list_find (λ a, getAccountNumber a = k) l = Some (p, a)) as ->; [|done].
    apply list_find_Some. eauto.
Qed.

Lemma scan_None l k :
  DistributedVectorAccountStorage.scan l k 0 = None
  ↔ ∀ a, a ∈ l → getAccountNumber a ≠ k.
Proof.
  rewrite scan_list_find, fmap_None, list_find_None, Forall_forall. done.
Qed.

(** The position found is the position of the head of [with_number]. *)
Lemma scan_with_number l k p a :
  DistributedVectorAccountStorage.scan l k 0 = Some p → l !! p = Some a →
  head (with_number k l) = Some a.
Proof.
  intros (a' & Ha' & Hk & Hfirst)%scan_Some Ha.
  assert (a' = a) as -> by congruence. clear Ha'.
  revert p Ha Hfirst. induction l as [|b l IH]; intros p Ha Hfirst; [done|].
  unfold with_number in *. destruct p as [|p]; cbn in Ha.
  - injection Ha as ->. by rewrite filter_cons_True.
  - rewrite filter_cons_False; [|apply (Hfirst 0%nat); [done|lia]].
    apply (IH p); [done|]. intros j c Hc Hj. apply (Hfirst (S j)); [done|lia].
Qed.
End distributed_storage.

Section distributed_adds.
Implicit Types (accounts : vec (list BankAccount) 10) (l : list BankAccount).

Lemma bucket_of_cons_same (i : fin 10) a l :
  leading_digit (getAccountNumber a) = Some (fin_to_nat i) →
  bucket_of i (a :: l) = a :: bucket_of i l.
Proof. intros Ha. unfold bucket_of. by rewrite filter_cons_True. Qed.

Lemma bucket_of_cons_other (i : fin 10) a l :
  leading_digit (getAccountNumber a) ≠ Some (fin_to_nat i) →
  bucket_of i (a :: l) = bucket_of i l.
Proof. intros Ha. unfold bucket_of. by rewrite filter_cons_False. Qed.

(** Adding digit-led records never faults, and appends to each bucket
    the records that belong there, in the order they were added. *)
Lemma dv_addAccounts_run l accounts :
  Forall (λ a, digit_leading (getAccountNumber a)) l →
  ∃ accounts', addAccounts l accounts = (accounts', Ok tt)
    ∧ ∀ i, accounts' !!! i = accounts !!! i ++ bucket_of i l.
Proof.
  intros Hl. revert accounts.
  induction Hl as [|a l Ha _ IH]; intros accounts.
  - exists accounts. split; [done|]. intros i. by rewrite app_nil_r.
  - destruct (getRef_digit _ Ha) as (ref & Href & Hd).
    destruct (IH (vinsert ref (accounts !!! ref ++ [a]) accounts))
      as (accounts' & Hrun & Hbuckets).
    exists accounts'. split.
    + cbn -[addAccount]. unfold mbind, M_bind.
      by rewrite (dv_addAccount_run _ _ _ Href).
    + intros i. rewrite Hbuckets. destruct (decide (i = ref)) as [->|Hne].
      * rewrite vlookup_insert, bucket_of_cons_same by done.
        by rewrite <-app_assoc.
      * rewrite vlookup_insert_ne by done.
        rewrite bucket_of_cons_other; [done|].
        rewrite Hd. intros [= Heq]. by apply (inj fin_to_nat) in Heq.
Qed.

Lemma dv_empty_lookup (i : fin 10) : DistributedVectorAccountStorage.empty !!! i = [].
Proof. apply vlookup_replicate. Qed.
End distributed_adds.

(** ** Machine integers *)

Lemma int_expr_Ok (z : Z) : INT_MIN ≤ z ≤ INT_MAX → int_expr z = Ok z.
Proof.
  intros Hz. unfold int_expr.
  destruct (Z.leb_spec INT_MIN z), (Z.leb_spec z INT_MAX); cbn; done || lia.
Qed.

Lemma int_expr_overflow (z : Z) : INT_MAX < z → int_expr z = Fault SignedOverflow.
Proof.
  intros Hz. unfold int_expr.
  destruct (Z.leb_spec z INT_MAX); [lia|]. by rewrite andb_false_r.
Qed.

Lemma int_expr_cases (z : Z) : int_expr z = Ok z ∨ int_expr z = Fault SignedOverflow.
Proof. unfold int_expr. destruct (_ && _); auto. Qed.

(** The initial [right] is the last index as long as the size fits. *)
Lemma right_of_size (n : nat) :
  Z.of_nat n ≤ INT_MAX + 1 →
  int_of_size_t (size_t_expr (Z.of_nat n - 1)) = Z.of_nat n - 1.
Proof.
  unfold INT_MAX, int_of_size_t, size_t_expr. intros Hn.
  destruct (decide (n = 0%nat)) as [->|Hpos]; [done|].
  rewrite (Z.mod_small (Z.of_nat n - 1)) by lia.
  rewrite Z.mod_small by lia. lia.
Qed.

(** It never exceeds the last index, whatever the size. *)
Lemma right_of_size_le (n : nat) :
  int_of_size_t (size_t_expr (Z.of_nat n - 1)) ≤ Z.of_nat n - 1.
Proof.
  unfold int_of_size_t, size_t_expr.
  destruct (decide (n = 0%nat)) as [->|Hpos]; [done|].
  pose proof (Z.mod_le (Z.of_nat n - 1) (2 ^ 64)).
  pose proof (Z.mod_pos_bound (Z.of_nat n - 1) (2 ^ 64)).
  pose proof (Z.mod_le ((Z.of_nat n - 1) `mod` 2 ^ 64 + 2 ^ 31) (2 ^ 32)).
  lia.
Qed.

(** ** Sorted sequences *)

Lemma sorted_by_number_lookup l (i j : nat) a b :
  sorted_by_number l → l !! i = Some a → l !! j = Some b → (i ≤ j)%nat →
  String.le (getAccountNumber a) (getAccountNumber b).
Proof.
  intros Hl. revert i j. induction Hl as [|c l Hl IH Hc]; intros i j Ha Hb Hij; [done|].
  destruct i as [|i], j as [|j]; cbn in *; try lia.
  - assert (a = b) as -> by congruence. done.
  - injection Ha as ->. rewrite Forall_forall in Hc.
    apply ltb_false_le, Hc. by eapply list_elem_of_lookup_2.
  - apply (IH i j); [done..|lia].
Qed.

(** The numbers of a sorted sequence ascend. *)
Lemma sorted_by_number_ascending l :
  sorted_by_number l ↔ StronglySorted String.le (getAccountNumber <$> l).
Proof.
  unfold sorted_by_number, account_lt. induction l as [|a l IH]; cbn.
  - split; constructor.
  - rewrite !StronglySorted_cons, IH, Forall_fmap.
    split; intros [Ha ?]; (split; [|done]);
      eapply Forall_impl; try exact Ha; cbn; intros b; apply ltb_false_le.
Qed.

(** ** The binary search loop *)

Section binary_search.
Implicit Types (l : list BankAccount) (k : string) (left right : Z).

(** Whatever the sequence, a position that is returned holds the number. *)
Lemma search_found fuel l k left right p :
  BinarySearchStorage.search fuel l k left right = Ok (Some p) →
  ∃ a, l !! p = Some a ∧ getAccountNumber a = k.
Proof.
  revert left right. induction fuel as [|fuel IH]; intros left right; [done|].
  cbn. destruct (left <=? right); [|done].
  destruct (int_expr (right - left)) as [width|]; [cbn|done].
  destruct (int_expr (left + width `quot` 2)) as [mid|]; [cbn|done].
  unfold vector_at. destruct (0 <=? mid); [|done].
  destruct (l !! Z.to_nat mid) as [a|] eqn:Ha; [cbn|done].
  destruct (String.eqb_spec (getAccountNumber a) k) as [Heq|Hne].
  { intros [= <-]. eauto. }
  destruct (String.ltb (getAccountNumber a) k).
  - destruct (int_expr (mid + 1)) as [left'|]; [cbn|done]. apply IH.
  - destruct (int_expr (mid - 1)) as [right'|]; [cbn|done]. apply IH.
Qed.

(** The loop never needs more iterations than the interval is wide. *)
Lemma search_fuel fuel l k left right :
  (0 < fuel)%nat → right - left + 1 < Z.of_nat fuel →
  BinarySearchStorage.search fuel l k left right ≠ Fault OutOfFuel.
Proof.
  revert left right.
  induction fuel as [|fuel IH]; intros left right Hpos Hfuel; [lia|].
  cbn. destruct (Z.leb_spec left right) as [Hle|]; [|done].
  destruct (int_expr_cases (right - left)) as [-> | ->]; [cbn|done].
  set (mid := left + (right - left) `quot` 2).
  assert (left ≤ mid ≤ right) as Hmid.
  { unfold mid. rewrite Z.quot_div_nonneg by lia.
    pose proof (Z.div_pos (right - left) 2).
    pose proof (Z.div_le_upper_bound (right - left) 2 (right - left)). lia. }
  destruct (int_expr_cases mid) as [-> | ->]; [cbn|done].
  unfold vector_at. destruct (0 <=? mid); [|done].
  destruct (l !! Z.to_nat mid) as [a|]; [cbn|done].
  destruct (String.eqb (getAccountNumber a) k); [done|].
  destruct (String.ltb (getAccountNumber a) k).
  - destruct (int_expr_cases (mid + 1)) as [-> | ->]; [cbn|done]. apply IH; lia.
  - destruct (int_expr_cases (mid - 1)) as [-> | ->]; [cbn|done]. apply IH; lia.
Qed.

(** On a sorted sequence whose size fits an [int], the loop decides
    whether the number occurs. *)
Lemma search_sorted fuel l k left right :
  sorted_by_number l →
  Z.of_nat (length l) ≤ INT_MAX →
  0 ≤ left → right < Z.of_nat (length l) → left ≤ right + 1 →
  right - left + 1 < Z.of_nat fuel →
  (∀ (i : nat) a, l !! i = Some a → Z.of_nat i < left →
     String.ltb (getAccountNumber a) k = true) →
  (∀ (i : nat) a, l !! i = Some a → right < Z.of_nat i →
     String.ltb k (getAccountNumber a) = true) →
  (∃ p a, BinarySearchStorage.search fuel l k left right = Ok (Some p)
          ∧ l !! p = Some a ∧ getAccountNumber a = k)
  ∨ (BinarySearchStorage.search fuel l k left right = Ok None
     ∧ ∀ a, a ∈ l → getAccountNumber a ≠ k).
Proof.
  intros Hsorted Hsize. revert left right.
  induction fuel as [|fuel IH]; intros left right Hleft Hright Hlr Hfuel Hbelow Habove;
    [lia|].
  cbn. destruct (Z.leb_spec left right) as [Hle|Hgt].
  2:{ right. split; [done|]. intros a [i Hi]%list_elem_of_lookup_1.
      destruct (decide (Z.of_nat i < left)).
      - by apply ltb_true_ne, (Hbelow i).
      - apply not_eq_sym, ltb_true_ne, (Habove i); [done|lia]. }
  unfold INT_MAX in Hsize. rewrite int_expr_Ok by (unfold INT_MIN, INT_MAX; lia). cbn.
  set (mid := left + (right - left) `quot` 2).
  assert (left ≤ mid ≤ right) as Hmid.
  { unfold mid. rewrite Z.quot_div_nonneg by lia.
    pose proof (Z.div_pos (right - left) 2).
    pose proof (Z.div_le_upper_bound (right - left) 2 (right - left)). lia. }
  rewrite int_expr_Ok by (unfold INT_MIN, INT_MAX; lia). cbn.
  unfold vector_at. destruct (Z.leb_spec 0 mid); [|lia].
  destruct (lookup_lt_is_Some_2 l (Z.to_nat mid)) as [a Ha]; [lia|].
  rewrite Ha. cbn.
  destruct (String.eqb_spec (getAccountNumber a) k) as [Heq|Hne].
  { left. eauto. }
  apply eqb_false_iff in Hne.
  destruct (String.ltb (getAccountNumber a) k) eqn:Hlt.
  - rewrite int_expr_Ok by (unfold INT_MIN, INT_MAX; lia). cbn.
    apply IH; try lia; [|intros i b Hb Hi; apply (Habove i); [done|lia]].
    intros i b Hb Hi. eapply le_ltb_trans; [|exact Hlt].
    apply (sorted_by_number_lookup l i (Z.to_nat mid)); [done..|lia].
  - rewrite int_expr_Ok by (unfold INT_MIN, INT_MAX; lia). cbn.
    apply IH; try lia; [intros i b Hb Hi; apply (Hbelow i); [done|lia]|].
    intros i b Hb Hi. eapply ltb_le_trans; [by apply ltb_trichotomy|].
    apply (sorted_by_number_lookup l (Z.to_nat mid) i); [done..|lia].
Qed.
End binary_search.

(** ** BinarySearchStorage, one call at a time *)

Section binary_search_storage.
Context `{StdSort}.
Implicit Types (accounts l : list BankAccount) (k : string).

Lemma bs_addAccount_run accounts account :
  addAccount account accounts = (accounts ++ [account], Ok tt).
Proof. reflexivity. Qed.

Lemma bs_addAccounts_run l accounts :
  addAccounts l accounts = (accounts ++ l, Ok tt).
Proof.
  revert accounts. induction l as [|a l IH]; intros accounts.
  - cbn. by rewrite app_nil_r.
  - cbn -[addAccount]. unfold mbind, M_bind.
    rewrite bs_addAccount_run, IH. by rewrite <-app_assoc.
Qed.

(** [findAccount] sorts, then searches the sorted sequence from end to end. *)
Lemma bs_findAccount_run k accounts :
  findAccount k accounts
  = (std_sort accounts,
     BinarySearchStorage.search (S (length (std_sort accounts))) (std_sort accounts) k
       0 (int_of_size_t (size_t_expr (Z.of_nat (length (std_sort accounts)) - 1)))).
Proof. reflexivity. Qed.

Lemma std_sort_length accounts : length (std_sort accounts) = length accounts.
Proof. by rewrite std_sort_permutation. Qed.

Lemma std_sort_elem_of a accounts : a ∈ std_sort accounts ↔ a ∈ accounts.
Proof. by rewrite std_sort_permutation. Qed.

(** With at most [INT_MAX] records the search decides membership. *)
Lemma bs_findAccount_sorted k accounts :
  Z.of_nat (length accounts) ≤ INT_MAX →
  (∃ (p : nat) a, findAccount k accounts = (std_sort accounts, Ok (Some p))
          ∧ std_sort accounts !! p = Some a ∧ getAccountNumber a = k ∧ a ∈ accounts)
  ∨ (findAccount k accounts = (std_sort accounts, Ok None)
     ∧ ∀ a, a ∈ accounts → getAccountNumber a ≠ k).
Proof.
  intros Hsize. rewrite bs_findAccount_run.
  rewrite right_of_size by (rewrite std_sort_length; lia).
  destruct (search_sorted (S (length (std_sort accounts))) (std_sort accounts) k
              0 (Z.of_nat (length (std_sort accounts)) - 1))
    as [(p & a & -> & Ha & Hk)|[-> Hnone]];
    try (rewrite ?std_sort_length; lia).
  - apply std_sort_sorted.
  - intros i a Hi%lookup_lt_Some Hlt. lia.
  - left. exists p, a. repeat split; try done.
    by eapply std_sort_elem_of, list_elem_of_lookup_2.
  - right. split; [done|]. intros a Ha. by apply Hnone, std_sort_elem_of.
Qed.

Lemma bs_lookup_account_present k accounts :
  Z.of_nat (length accounts) ≤ INT_MAX →
  (∃ a, a ∈ accounts ∧ getAccountNumber a = k) →
  ∃ a, lookup_account k accounts = Ok (Some a)
       ∧ a ∈ accounts ∧ getAccountNumber a = k.
Proof.
  intros Hsize (b & Hb & Hk).
  destruct (bs_findAccount_sorted k accounts Hsize)
    as [(p & a & Hrun & Ha & Hka & Hin)|[_ Hnone]]; [|by destruct (Hnone b)].
  exists a. unfold lookup_account. rewrite Hrun. cbn. by rewrite Ha.
Qed.

Lemma bs_lookup_account_absent k accounts :
  Z.of_nat (length accounts) ≤ INT_MAX →
  (∀ a, a ∈ accounts → getAccountNumber a ≠ k) →
  findAccount k accounts = (std_sort accounts, Ok None)
  ∧ lookup_account k accounts = Ok None.
Proof.
  intros Hsize Hnone.
  destruct (bs_findAccount_sorted k accounts Hsize)
    as [(p & a & _ & _ & Hka & Hin)|[Hrun _]]; [by destruct (Hnone a)|].
  split; [done|]. unfold lookup_account. by rewrite Hrun.
Qed.

(** Without the bound on the size a pointer that is returned still
    points at a stored record with the number asked for. *)
Lemma bs_lookup_account_sound k accounts r :
  lookup_account k accounts = Ok r →
  from_option (λ a, a ∈ accounts ∧ getAccountNumber a = k) True r.
Proof.
  unfold lookup_account. rewrite bs_findAccount_run.
  destruct (BinarySearchStorage.search _ _ _ _ _) as [[p|]|e] eqn:Hs; [| |done].
  - apply search_found in Hs as (a & Ha & Hk). cbn. rewrite Ha.
    intros [= <-]. cbn. split; [|done].
    by eapply std_sort_elem_of, list_elem_of_lookup_2.
  - by intros [= <-].
Qed.
End binary_search_storage.

(** ** A sorting function meeting the contract *)

#[local] Instance account_le_dec : RelDecision (λ a b, account_lt b a = false).
Proof. intros a b. apply _. Defined.

#[local] Instance account_le_trans : Transitive (λ a b, account_lt b a = false).
Proof.
  intros a b c. unfold account_lt. rewrite !ltb_false_le. intros ??. by etrans.
Qed.

#[local] Instance account_le_total : Total (λ a b, account_lt b a = false).
Proof.
  intros a b. unfold account_lt. rewrite !ltb_false_le. apply total, _.
Qed.

(** Merge sort is one such function (and a stable one). *)
Definition merge_StdSort : StdSort := {|
  std_sort := merge_sort (λ a b, account_lt b a = false);
  std_sort_permutation := merge_sort_Permutation _;
  std_sort_sorted := StronglySorted_merge_sort _;
|}.

(** ** What a lookup returns *)

Lemma with_number_app k (l1 l2 : list BankAccount) :
  with_number k (l1 ++ l2) = with_number k l1 ++ with_number k l2.
Proof. apply filter_app. Qed.

Lemma with_number_nil k (l : list BankAccount) :
  with_number k l = [] ↔ ∀ a, a ∈ l → getAccountNumber a ≠ k.
Proof.
  unfold with_number. rewrite <-Forall_forall. split.
  - intros Hnil. apply Forall_forall. intros a Ha Hk.
    assert (a ∈ filter (λ a, getAccountNumber a = k) l) as Hin
      by (by apply list_elem_of_filter).
    rewrite Hnil in Hin. by apply elem_of_nil in Hin.
  - induction 1 as [|a l Ha _ IH]; [done|]. by rewrite filter_cons_False.
Qed.

Lemma with_number_elem_of k (l : list BankAccount) a :
  a ∈ with_number k l ↔ getAccountNumber a = k ∧ a ∈ l.
Proof. unfold with_number. by rewrite list_elem_of_filter. Qed.

(** A lookup in the bucketed store returns the record added first among
    those of the bucket with the number asked for. *)
Lemma dv_lookup_account (accounts : vec (list BankAccount) 10) k ref :
  DistributedVectorAccountStorage.getRef (string_front k) = Ok ref →
  lookup_account k accounts = Ok (head (with_number k (accounts !!! ref))).
Proof.
  intros Href. unfold lookup_account. rewrite (dv_findAccount_run _ _ _ Href).
  destruct (DistributedVectorAccountStorage.scan _ _ _) as [p|] eqn:Hscan; cbn.
  - pose proof Hscan as (a & Ha & _)%scan_Some. rewrite Ha.
    by rewrite (scan_with_number _ _ _ _ Hscan Ha).
  - rewrite scan_None, <-with_number_nil in Hscan. by rewrite Hscan.
Qed.

(** ** Stores filled by a list of adds *)

(** With pairwise distinct numbers at most one record carries a number. *)
Lemma with_number_NoDup k (adds : list BankAccount) :
  NoDup (getAccountNumber <$> adds) →
  with_number k adds = [] ∨ ∃ a, with_number k adds = [a].
Proof.
  induction adds as [|a adds IH]; [by left|].
  rewrite fmap_cons, NoDup_cons. intros [Hfresh Hrest].
  unfold with_number in *. destruct (decide (getAccountNumber a = k)) as [Hk|Hk].
  - right. exists a. rewrite filter_cons_True by done. f_equal.
    apply with_number_nil. intros b Hb Hbk. apply Hfresh.
    apply list_elem_of_fmap. exists b. split; [congruence|done].
  - rewrite filter_cons_False by done. by apply IH.
Qed.

Lemma with_number_unique (adds : list BankAccount) a :
  NoDup (getAccountNumber <$> adds) → a ∈ adds →
  with_number (getAccountNumber a) adds = [a].
Proof.
  intros Hdistinct Ha.
  assert (a ∈ with_number (getAccountNumber a) adds) as Hin
    by (by apply with_number_elem_of).
  destruct (with_number_NoDup (getAccountNumber a) adds Hdistinct)
    as [Hw|[b Hw]]; rewrite Hw in Hin.
  - by apply elem_of_nil in Hin.
  - by apply list_elem_of_singleton in Hin as ->.
Qed.

Lemma with_number_bucket_of k ref (adds : list BankAccount) :
  leading_digit k = Some (fin_to_nat ref) →
  with_number k (bucket_of ref adds) = with_number k adds.
Proof.
  intros Hk. unfold with_number, bucket_of. rewrite list_filter_filter.
  apply list_filter_iff. intros a. split; [by intros [? _]|].
  intros Ha. split; [done|]. by rewrite Ha.
Qed.

Lemma bucket_of_elem_of ref (adds : list BankAccount) a :
  a ∈ bucket_of ref adds
  ↔ leading_digit (getAccountNumber a) = Some (fin_to_nat ref) ∧ a ∈ adds.
Proof. unfold bucket_of. by rewrite list_elem_of_filter. Qed.

(** After a list of adds the map holds, for each number, the record added
    last with it. *)
Lemma map_adds_lookup (adds : list BankAccount) (accounts : gmap string BankAccount) k :
  foldl (λ m a, <[getAccountNumber a := a]> m) accounts adds !! k
  = match last (with_number k adds) with
    | Some a => Some a
    | None => accounts !! k
    end.
Proof.
  revert accounts. induction adds as [|a adds IH]; intros accounts; [done|].
  cbn [foldl]. rewrite IH. unfold with_number.
  destruct (decide (getAccountNumber a = k)) as [Hk|Hk].
  - rewrite filter_cons_True by done. rewrite Hk, lookup_insert_eq.
    fold (with_number k adds). rewrite last_cons.
    by destruct (last (with_number k adds)).
  - rewrite filter_cons_False by done. by rewrite lookup_insert_ne.
Qed.

Lemma map_adds_lookup_account (adds : list BankAccount) k :
  lookup_account k (state_after (addAccounts adds) MapAccountStorage.empty)
  = Ok (last (with_number k adds)).
Proof.
  unfold state_after. rewrite map_addAccounts_run, map_lookup_account. cbn.
  rewrite map_adds_lookup. unfold MapAccountStorage.empty. rewrite lookup_empty.
  by destruct (last _).
Qed.

Lemma dv_adds_lookup_account (adds : list BankAccount) k ref :
  Forall (λ a, digit_leading (getAccountNumber a)) adds →
  DistributedVectorAccountStorage.getRef (string_front k) = Ok ref →
  outcome (addAccounts adds) DistributedVectorAccountStorage.empty = Ok tt
  ∧ lookup_account k (state_after (addAccounts adds) DistributedVectorAccountStorage.empty)
    = Ok (head (with_number k adds)).
Proof.
  intros Hadds Href.
  destruct (dv_addAccounts_run adds DistributedVectorAccountStorage.empty Hadds)
    as (accounts & Hrun & Hbuckets).
  unfold outcome, state_after. rewrite Hrun. cbn. split; [done|].
  rewrite (dv_lookup_account _ _ _ Href), Hbuckets, dv_empty_lookup. cbn.
  do 2 f_equal. unfold with_number, bucket_of. rewrite list_filter_filter.
  apply list_filter_iff. intros a. split; [by intros [? _]|].
  intros Hk. split; [done|]. apply getRef_Ok in Href.
  unfold leading_digit. by rewrite Hk.
Qed.

Lemma bs_adds_state `{StdSort} (adds : list BankAccount) :
  addAccounts adds BinarySearchStorage.empty = (adds, Ok tt).
Proof. by rewrite bs_addAccounts_run. Qed.

(** ** A store too large for an [int] index *)

Lemma search_empty_interval fuel (l : list BankAccount) k left right :
  right < left → BinarySearchStorage.search (S fuel) l k left right = Ok None.
Proof. intros Hlt. cbn. by destruct (Z.leb_spec left right); [lia|]. Qed.

(** With more than [2^31] records (and no more than [2^32]) the initial
    [right] is negative, and the search returns the null pointer without
    looking at a single record. *)
Lemma bs_findAccount_too_many `{StdSort} (accounts : list BankAccount) (k : string) :
  2 ^ 31 < Z.of_nat (length accounts) ≤ 2 ^ 32 →
  findAccount k accounts = (std_sort accounts, Ok None).
Proof.
  intros Hsize. rewrite bs_findAccount_run, std_sort_length.
  rewrite search_empty_interval; [done|].
  unfold int_of_size_t, size_t_expr.
  rewrite (Z.mod_small (Z.of_nat (length accounts) - 1)) by lia.
  pose proof (Z.mod_pos_bound (Z.of_nat (length accounts) - 1 + 2 ^ 31) (2 ^ 32)).
  assert ((Z.of_nat (length accounts) - 1 + 2 ^ 31) `mod` 2 ^ 32
          = Z.of_nat (length accounts) - 1 + 2 ^ 31 - 2 ^ 32) as ->; [|lia].
  symmetry. apply (Z.mod_unique _ _ 1); lia.
Qed.

Lemma many_size : Z.of_nat many = 2 ^ 31 + 1.
Proof. unfold many. apply Z2Nat.id. lia. Qed.

#[local] Opaque many.

Lemma many_accounts_length : Z.of_nat (length many_accounts) = 2 ^ 31 + 1.
Proof. unfold many_accounts. rewrite length_fmap, length_seq. apply many_size. Qed.

Lemma binary_nonempty (p : positive) : binary p ≠ ""%string.
Proof. by destruct p. Qed.

Lemma binary_inj (p q : positive) : binary p = binary q → p = q.
Proof.
  revert q. induction p as [p IH|p IH|]; intros [q|q|] Hpq; cbn in Hpq;
    try discriminate; try done; injection Hpq as Hpq;
    try (f_equal; by apply IH);
    by (apply binary_nonempty in Hpq || (symmetry in Hpq; apply binary_nonempty in Hpq)).
Qed.

Lemma numbered_inj (i j : nat) :
  getAccountNumber (numbered i) = getAccountNumber (numbered j) → i = j.
Proof. intros [= Hij]. by apply binary_inj, SuccNat2Pos.inj in Hij. Qed.

Lemma many_accounts_distinct : NoDup (getAccountNumber <$> many_accounts).
Proof.
  unfold many_accounts. rewrite <-list_fmap_compose.
  apply NoDup_fmap_2; [|apply NoDup_seq].
  intros i j. apply numbered_inj.
Qed.

Lemma many_accounts_digit_leading :
  Forall (λ a, digit_leading (getAccountNumber a)) many_accounts.
Proof.
  unfold many_accounts. apply Forall_fmap, Forall_forall. intros i _. by eexists.
Qed.

Lemma many_accounts_head : numbered 0 ∈ many_accounts.
Proof.
  unfold many_accounts. apply list_elem_of_fmap. exists 0%nat. split; [done|].
  apply elem_of_seq. pose proof many_size. lia.
Qed.

Lemma many_accounts_first : with_number "01" many_accounts = [numbered 0].
Proof.
  exact (with_number_unique many_accounts (numbered 0)
           many_accounts_distinct many_accounts_head).
Qed.

(** *** A store whose last index is [INT_MAX] *)

(** When every number in the sequence is below [k] and [right] is
    [INT_MAX], the search walks right until [mid + 1] overflows. *)
Lemma search_overflow fuel (l : list BankAccount) k left :
  Z.of_nat (length l) = 2 ^ 31 →
  (∀ a, a ∈ l → String.ltb (getAccountNumber a) k = true) →
  0 ≤ left ≤ INT_MAX →
  INT_MAX - left + 1 < Z.of_nat fuel →
  BinarySearchStorage.search fuel l k left INT_MAX = Fault SignedOverflow.
Proof.
  intros Hlen Hbelow. revert left.
  induction fuel as [|fuel IH]; intros left Hleft Hfuel; [unfold INT_MAX in *; lia|].
  cbn [BinarySearchStorage.search].
  destruct (Z.leb_spec left INT_MAX) as [_|]; [|lia].
  rewrite int_expr_Ok by (unfold INT_MIN, INT_MAX in *; lia). cbn [mbind result_bind].
  set (mid := left + (INT_MAX - left) `quot` 2).
  assert (left ≤ mid ≤ INT_MAX) as Hmid.
  { unfold mid. rewrite Z.quot_div_nonneg by lia.
    pose proof (Z.div_pos (INT_MAX - left) 2).
    pose proof (Z.div_le_upper_bound (INT_MAX - left) 2 (INT_MAX - left)). lia. }
  rewrite int_expr_Ok by (unfold INT_MIN, INT_MAX in *; lia). cbn [mbind result_bind].
  unfold vector_at. destruct (Z.leb_spec 0 mid); [|lia].
  destruct (lookup_lt_is_Some_2 l (Z.to_nat mid)) as [a Ha];
    [unfold INT_MAX in *; lia|].
  rewrite Ha. cbn [mbind result_bind].
  assert (String.ltb (getAccountNumber a) k = true) as Hlt
    by (by eapply Hbelow, list_elem_of_lookup_2).
  assert (String.eqb (getAccountNumber a) k = false) as ->
    by (by apply eqb_false_iff, ltb_true_ne).
  rewrite Hlt. destruct (decide (mid = INT_MAX)) as [->|Hne].
  - by rewrite int_expr_overflow by lia.
  - rewrite int_expr_Ok by (unfold INT_MIN, INT_MAX in *; lia). cbn [mbind result_bind].
    apply IH; lia.
Qed.

Lemma bs_findAccount_overflow `{StdSort} (accounts : list BankAccount) (k : string) :
  Z.of_nat (length accounts) = 2 ^ 31 →
  (∀ a, a ∈ accounts → String.ltb (getAccountNumber a) k = true) →
  findAccount k accounts = (std_sort accounts, Fault SignedOverflow).
Proof.
  intros Hlen Hbelow. rewrite bs_findAccount_run, std_sort_length. f_equal.
  rewrite right_of_size by (unfold INT_MAX; lia).
  replace (Z.of_nat (length accounts) - 1) with INT_MAX by (unfold INT_MAX; lia).
  apply search_overflow.
  - by rewrite std_sort_length.
  - intros a Ha. by apply Hbelow, std_sort_elem_of.
  - unfold INT_MAX. lia.
  - unfold INT_MAX. lia.
Qed.

Lemma full_size : Z.of_nat full = 2 ^ 31.
Proof. unfold full. apply Z2Nat.id. lia. Qed.

#[local] Opaque full.

Lemma full_accounts_length : Z.of_nat (length full_accounts) = 2 ^ 31.
Proof. unfold full_accounts. rewrite length_fmap, length_seq. apply full_size. Qed.

Lemma full_accounts_below a : a ∈ full_accounts → String.ltb (getAccountNumber a) "1" = true.
Proof. unfold full_accounts. intros (i & -> & _)%list_elem_of_fmap. reflexivity. Qed.

(** ** C1: find after add *)

Lemma one_first_ne_second : one_first ≠ one_second.
Proof.
  intros Heq.
  assert (PrimFloat.eqb (balance one_first) 1 = PrimFloat.eqb (balance one_second) 1)
    as Hb by (by rewrite Heq).
  vm_compute in Hb. discriminate.
Qed.

(** C1, as stated, fails. In the bucketed store a find right after
    [add(v)] returns the record that was added first with that number,
    which need not be [v]: "1" leads with a digit, the record with
    balance 1 is added before the one with balance 2, and the find after
    the second add returns the first. The sorted store does the same
    when [std::sort] keeps equal numbers in place (as merge sort does).
    And in a sorted store that holds [2^31 + 1] records already, the find
    after one more add returns the null pointer. *)
Lemma C1_counterexample :
  digit_leading "1"
  ∧ getAccountNumber one_second = "1"%string
  ∧ one_first ≠ one_second
  ∧ lookup_account "1"
      (state_after (addAccount one_second)
         (state_after (addAccount one_first) DistributedVectorAccountStorage.empty))
    = Ok (Some one_first)
  ∧ @lookup_account _ (@BinarySearchStorage.storage merge_StdSort) "1"
      (state_after
         (@addAccount _ (@BinarySearchStorage.storage merge_StdSort) one_second)
         (state_after
            (@addAccount _ (@BinarySearchStorage.storage merge_StdSort) one_first)
            BinarySearchStorage.empty))
    = Ok (Some one_first)
  ∧ (∀ sorter : StdSort,
       lookup_account (getAccountNumber (numbered many))
         (state_after (addAccount (numbered many)) many_accounts)
       = Ok None).
Proof.
  split; [by eexists|]. split; [reflexivity|]. split; [apply one_first_ne_second|].
  split; [vm_compute; reflexivity|]. split; [vm_compute; reflexivity|].
  intros sorter. unfold state_after. rewrite bs_addAccount_run. cbn [fst].
  unfold lookup_account. rewrite bs_findAccount_too_many; [reflexivity|].
  rewrite length_app, Nat2Z.inj_add, many_accounts_length. cbn [length]. lia.
Qed.

(** C1 (amended) — round-trip. Right after [add(v)] a find for the number
    of [v] returns a stored record with that number. In the map store it
    is [v]. In the bucketed store (the number leading with a decimal digit)
    it is the first record with that number in the bucket, which is [v]
    when the bucket held none before. In the sorted store, with no more
    than [INT_MAX] records stored after the add, it is one of the stored
    records with that number, which is [v] when none was stored before. *)
Theorem C1_round_trip `{StdSort} (v : BankAccount) :
  (∀ accounts : gmap string BankAccount,
     outcome (addAccount v) accounts = Ok tt
     ∧ lookup_account (getAccountNumber v) (state_after (addAccount v) accounts)
       = Ok (Some v))
  ∧ (∀ accounts : vec (list BankAccount) 10,
       digit_leading (getAccountNumber v) →
       outcome (addAccount v) accounts = Ok tt
       ∧ ∃ ref a,
           DistributedVectorAccountStorage.getRef (string_front (getAccountNumber v)) = Ok ref
           ∧ lookup_account (getAccountNumber v) (state_after (addAccount v) accounts)
             = Ok (Some a)
           ∧ head (with_number (getAccountNumber v) (accounts !!! ref ++ [v])) = Some a
           ∧ getAccountNumber a = getAccountNumber v
           ∧ ((∀ b, b ∈ accounts !!! ref → getAccountNumber b ≠ getAccountNumber v)
              → a = v))
  ∧ (∀ accounts : list BankAccount,
       Z.of_nat (length accounts) + 1 ≤ INT_MAX →
       outcome (addAccount v) accounts = Ok tt
       ∧ ∃ a,
           lookup_account (getAccountNumber v) (state_after (addAccount v) accounts)
           = Ok (Some a)
           ∧ a ∈ accounts ++ [v]
           ∧ getAccountNumber a = getAccountNumber v
           ∧ ((∀ b, b ∈ accounts → getAccountNumber b ≠ getAccountNumber v) → a = v)).
Proof.
  split; [|split].
  - intros accounts. split; [done|].
    unfold state_after. rewrite map_addAccount_run, map_lookup_account. cbn.
    by rewrite lookup_insert_eq.
  - intros accounts (ref & Href & _)%getRef_digit.
    unfold state_after, outcome. rewrite (dv_addAccount_run _ _ _ Href). cbn.
    split; [done|].
    rewrite (dv_lookup_account _ _ _ Href), vlookup_insert.
    set (k := getAccountNumber v).
    destruct (with_number k (accounts !!! ref ++ [v])) as [|a l] eqn:Hw.
    { exfalso. apply (proj1 (with_number_nil _ _) Hw v); [set_solver|done]. }
    exists ref, a. split; [done|]. split; [done|]. split; [by rewrite Hw|]. split.
    + assert (a ∈ with_number k (accounts !!! ref ++ [v])) as Ha
        by (rewrite Hw; set_solver).
      by apply with_number_elem_of in Ha as [? _].
    + intros Hnone%with_number_nil.
      rewrite with_number_app, Hnone in Hw. unfold with_number in Hw.
      rewrite filter_cons_True in Hw by done. by injection Hw as ->.
  - intros accounts Hsize.
    unfold state_after, outcome. rewrite bs_addAccount_run. cbn. split; [done|].
    destruct (bs_lookup_account_present (getAccountNumber v) (accounts ++ [v]))
      as (a & Hrun & Ha & Hk).
    { rewrite length_app. cbn. lia. }
    { exists v. split; [set_solver|done]. }
    exists a. repeat split; try done.
    intros Hnone. apply elem_of_app in Ha as [Ha|Ha]; [by destruct (Hnone a)|].
    by apply list_elem_of_singleton in Ha.
Qed.

(** C1 at a concrete input: the record ("1", 0) added to each empty store
    (merge sort standing for [std::sort]) is what the find returns. *)
Lemma C1_round_trip_witness :
  digit_leading (getAccountNumber one_zero)
  ∧ Z.of_nat (length BinarySearchStorage.empty) + 1 ≤ INT_MAX
  ∧ lookup_account (getAccountNumber one_zero) (state_after (addAccount one_zero) MapAccountStorage.empty)
    = Ok (Some one_zero)
  ∧ lookup_account (getAccountNumber one_zero)
      (state_after (addAccount one_zero) DistributedVectorAccountStorage.empty)
    = Ok (Some one_zero)
  ∧ @lookup_account _ (@BinarySearchStorage.storage merge_StdSort)
      (getAccountNumber one_zero)
      (state_after
         (@addAccount _ (@BinarySearchStorage.storage merge_StdSort) one_zero)
         BinarySearchStorage.empty)
    = Ok (Some one_zero).
Proof.
  assert (digit_leading (getAccountNumber one_zero)) as Hdigit by (by eexists).
  assert (Z.of_nat (length BinarySearchStorage.empty) + 1 ≤ INT_MAX) as Hsize
    by (by vm_compute).
  destruct (@C1_round_trip merge_StdSort one_zero) as (Hmap & Hdv & Hbs).
  split; [done|]. split; [done|]. split; [apply Hmap|]. split.
  - destruct (Hdv DistributedVectorAccountStorage.empty Hdigit)
      as (_ & ref & a & _ & Hrun & _ & _ & Ha).
    rewrite Hrun, Ha; [done|]. intros b. rewrite dv_empty_lookup. by inversion 1.
  - destruct (Hbs BinarySearchStorage.empty Hsize) as (_ & a & Hrun & _ & _ & Ha).
    rewrite Hrun, Ha; [done|]. intros b. by inversion 1.
Defined.

(** ** C2: what find does to the store *)

(** C2 — [findAccount] of the map store leaves the map as it was.
    [findAccount] of the sorted store changes the sequence exactly as
    [sortAccounts] does, on every call: the sequence it searches is the
    whole old sequence rearranged, ascending by number, and the search
    itself runs on that sequence from its first to its last index. *)
Theorem C2_find_effect `{StdSort} (k : string) :
  (∀ accounts : gmap string BankAccount,
     state_after (findAccount k) accounts = accounts)
  ∧ (∀ accounts : list BankAccount,
       state_after (findAccount k) accounts
       = state_after BinarySearchStorage.sortAccounts accounts
       ∧ state_after BinarySearchStorage.sortAccounts accounts = std_sort accounts
       ∧ std_sort accounts ≡ₚ accounts
       ∧ sorted_by_number (std_sort accounts)
       ∧ StronglySorted String.le (getAccountNumber <$> std_sort accounts)
       ∧ outcome (findAccount k) accounts
         = BinarySearchStorage.search (S (length (std_sort accounts)))
             (std_sort accounts) k
             0 (int_of_size_t (size_t_expr (Z.of_nat (length (std_sort accounts)) - 1)))
       ∧ outcome (findAccount k) accounts ≠ Fault OutOfFuel).
Proof.
  split.
  - intros accounts. unfold state_after. by rewrite map_findAccount_run.
  - intros accounts. unfold state_after, outcome. rewrite bs_findAccount_run.
    cbn [fst snd]. split_and!; try done.
    + apply std_sort_permutation.
    + apply std_sort_sorted.
    + apply sorted_by_number_ascending, std_sort_sorted.
    + apply search_fuel; [lia|].
      pose proof (right_of_size_le (length (std_sort accounts))). lia.
Qed.

(** ** C3: the driver's scenario on the bucketed store *)

(** C3 — the thousand numbers "0000000001" to "0000001000" are added
    through the bank to an empty bucketed store. The finds for the first
    and the last number return the records, with balance 0. The find for
    "notfound" does not return: ['n' - '0'] is 62, and [getRef] subscripts
    the array of ten vectors with it. *)
Theorem C3_scenario :
  padded_number 0 = "0000000001"%string
  ∧ padded_number 999 = "0000001000"%string
  ∧ outcome (initialize 1000 0) DistributedVectorAccountStorage.empty = Ok tt
  ∧ lookup_account "0000000001"
      (state_after (initialize 1000 0) DistributedVectorAccountStorage.empty)
    = Ok (Some (mkBankAccount "0000000001" 0))
  ∧ lookup_account "0000001000"
      (state_after (initialize 1000 0) DistributedVectorAccountStorage.empty)
    = Ok (Some (mkBankAccount "0000001000" 0))
  ∧ DistributedVectorAccountStorage.getRef (string_front "notfound") = Fault (OutOfRange 62)
  ∧ outcome (Bank.getAccount "notfound")
      (state_after (initialize 1000 0) DistributedVectorAccountStorage.empty)
    = Fault (OutOfRange 62)
  ∧ lookup_account "notfound"
      (state_after (initialize 1000 0) DistributedVectorAccountStorage.empty)
    = Fault (OutOfRange 62).
Proof.
  split_and!; by vm_compute.
Qed.

(** ** C4: numbers that were never added *)

(** Where absence holds and where it does not. A number that none of the
    added records carries is reported absent by the map store, by the
    sorted store holding at most [INT_MAX] records, and by the bucketed
    store when the number leads with a digit. For any other number the
    bucketed store subscripts its array out of range. *)
Lemma absence_by_backend `{StdSort} (adds : list BankAccount) (k : string) :
  (∀ a, a ∈ adds → getAccountNumber a ≠ k) →
  findAccount k (state_after (addAccounts adds) MapAccountStorage.empty)
  = (state_after (addAccounts adds) MapAccountStorage.empty, Ok None)
  ∧ (Z.of_nat (length adds) ≤ INT_MAX →
     findAccount k (state_after (addAccounts adds) BinarySearchStorage.empty)
     = (std_sort adds, Ok None))
  ∧ (Forall (λ a, digit_leading (getAccountNumber a)) adds → digit_leading k →
     findAccount k (state_after (addAccounts adds) DistributedVectorAccountStorage.empty)
     = (state_after (addAccounts adds) DistributedVectorAccountStorage.empty, Ok None))
  ∧ (¬ digit_leading k →
     ∀ accounts : vec (list BankAccount) 10,
       findAccount k accounts
       = (accounts, Fault (OutOfRange (int_of_char (string_front k) - 48)))).
Proof.
  intros Hnone. split_and!.
  - rewrite map_findAccount_run. unfold state_after.
    rewrite map_addAccounts_run. cbn [fst]. rewrite map_adds_lookup.
    apply with_number_nil in Hnone. rewrite Hnone. cbn.
    unfold MapAccountStorage.empty. by rewrite lookup_empty.
  - intros Hsize. unfold state_after. rewrite bs_adds_state. cbn.
    by apply bs_lookup_account_absent.
  - intros Hadds (ref & Href & _)%getRef_digit.
    rewrite (dv_findAccount_run _ _ _ Href).
    destruct (dv_addAccounts_run adds DistributedVectorAccountStorage.empty Hadds)
      as (accounts & Hrun & Hbuckets).
    unfold state_after. rewrite Hrun. cbn.
    assert (DistributedVectorAccountStorage.scan (accounts !!! ref) k 0 = None) as ->;
      [|done].
    apply scan_None. intros a. rewrite Hbuckets, dv_empty_lookup. cbn.
    unfold bucket_of. rewrite list_elem_of_filter. intros [_ Ha]. by apply Hnone.
  - intros Hk accounts. by apply dv_findAccount_fault, getRef_no_digit.
Qed.

(** C4 — the number "notfound" was never added to the bucketed store (the
    store is empty), it does not lead with a digit, and the find for it
    ends in the out-of-range subscript 62 of the ten-element array
    instead of returning the null pointer. The map store returns the null
    pointer for the same number. The sorted store has a gap of its own:
    holding [2^31] records, all with numbers below "1", its find for "1"
    (never added) ends in the signed overflow of [mid + 1]. *)
Theorem C4_notfound_faults :
  ¬ digit_leading "notfound"
  ∧ findAccount "notfound" DistributedVectorAccountStorage.empty
    = (DistributedVectorAccountStorage.empty, Fault (OutOfRange 62))
  ∧ outcome (Bank.getAccount "notfound") DistributedVectorAccountStorage.empty
    = Fault (OutOfRange 62)
  ∧ outcome (Bank.getAccount "notfound") MapAccountStorage.empty = Ok None
  ∧ (∀ a, a ∈ full_accounts → getAccountNumber a ≠ "1"%string)
  ∧ (∀ sorter : StdSort,
       outcome (findAccount "1")
         (state_after (addAccounts full_accounts) BinarySearchStorage.empty)
       = Fault SignedOverflow).
Proof.
  split; [intros [d Hd]; by vm_compute in Hd|].
  split; [by vm_compute|]. split; [by vm_compute|]. split; [by vm_compute|].
  split.
  - intros a Ha%full_accounts_below. by apply ltb_true_ne.
  - intros sorter. unfold state_after, outcome. rewrite bs_adds_state. cbn [fst].
    rewrite bs_findAccount_overflow; [reflexivity|apply full_accounts_length|].
    apply full_accounts_below.
Qed.

(** ** C5: the map store overwrites *)

(** C5 — two records with the same number are added to the map store one
    after the other. The find for the number then returns the second
    record; the store is the one that adding the second record alone
    would have made; a find that still returns the first record found it
    under another number, where it was before both adds; and in a store
    filled by adds from the empty one no find returns the first record. *)
Theorem C5_map_overwrite (accounts : gmap string BankAccount)
    (first second : BankAccount) :
  getAccountNumber first = getAccountNumber second →
  outcome (addAccount first;; addAccount second) accounts = Ok tt
  ∧ lookup_account (getAccountNumber second)
      (state_after (addAccount first;; addAccount second) accounts)
    = Ok (Some second)
  ∧ state_after (addAccount first;; addAccount second) accounts
    = state_after (addAccount second) accounts
  ∧ (first ≠ second →
     (∀ k, lookup_account k (state_after (addAccount first;; addAccount second) accounts)
           = Ok (Some first) →
           k ≠ getAccountNumber first ∧ lookup_account k accounts = Ok (Some first))
     ∧ (∀ adds k,
          lookup_account k
            (state_after (addAccounts (adds ++ [first; second])) MapAccountStorage.empty)
          ≠ Ok (Some first))).
Proof.
  intros Hsame.
  assert (state_after (addAccount first;; addAccount second) accounts
          = <[getAccountNumber second := second]> accounts) as Hstate.
  { unfold state_after, mbind, M_bind. rewrite !map_addAccount_run. cbn.
    rewrite Hsame. apply insert_insert_eq. }
  split_and!.
  - unfold outcome, mbind, M_bind. by rewrite !map_addAccount_run.
  - rewrite Hstate, map_lookup_account. by rewrite lookup_insert_eq.
  - rewrite Hstate. unfold state_after. by rewrite map_addAccount_run.
  - intros Hne. split.
    + intros k. rewrite Hstate, !map_lookup_account. intros [= Hk].
      destruct (decide (getAccountNumber second = k)) as [<-|Hother].
      * rewrite lookup_insert_eq in Hk. congruence.
      * rewrite lookup_insert_ne in Hk by done. split; [congruence|by f_equal].
    + intros adds k. rewrite map_adds_lookup_account, with_number_app.
      intros [= Hlast]. unfold with_number in Hlast at 2.
      destruct (decide (getAccountNumber first = k)) as [Hk|Hk].
      * rewrite filter_cons_True, filter_cons_True in Hlast by congruence.
        rewrite filter_nil in Hlast.
        rewrite (assoc_L (++) _ [first] [second]), last_snoc in Hlast. congruence.
      * rewrite filter_cons_False, filter_cons_False in Hlast by congruence.
        rewrite filter_nil, app_nil_r in Hlast.
        apply last_Some_elem_of, with_number_elem_of in Hlast as [? _]. done.
Qed.

(** C5 at a concrete input: ("1", 1) then ("1", 2) into the empty map. *)
Lemma C5_map_overwrite_witness :
  getAccountNumber one_first = getAccountNumber one_second
  ∧ lookup_account (getAccountNumber one_second)
      (state_after (addAccount one_first;; addAccount one_second) MapAccountStorage.empty)
    = Ok (Some one_second).
Proof.
  split; [reflexivity|].
  destruct (C5_map_overwrite MapAccountStorage.empty one_first one_second eq_refl)
    as (_ & Hfind & _).
  exact Hfind.
Defined.

(** ** C6 and C7: the buckets *)

(** C6 — partition. Digit-led records are added to an empty bucketed
    store. No add faults, and afterwards bucket [i] holds exactly the
    added records whose number starts with digit [i], in the order of
    their adds. One more add appends its record to the bucket of its
    leading digit and leaves the other nine alone. A pointer returned by
    a find points into the bucket of the leading digit of the number
    asked for, at a record with that number; so a record is never found
    through a number that starts with another digit. *)
Theorem C6_partition (adds : list BankAccount) :
  Forall (λ a, digit_leading (getAccountNumber a)) adds →
  ∃ accounts : vec (list BankAccount) 10,
    addAccounts adds DistributedVectorAccountStorage.empty = (accounts, Ok tt)
    ∧ (∀ i, accounts !!! i = bucket_of i adds)
    ∧ (∀ i a, a ∈ accounts !!! i →
         leading_digit (getAccountNumber a) = Some (fin_to_nat i))
    ∧ (∀ account, digit_leading (getAccountNumber account) →
         ∃ ref, leading_digit (getAccountNumber account) = Some (fin_to_nat ref)
           ∧ outcome (addAccount account) accounts = Ok tt
           ∧ state_after (addAccount account) accounts !!! ref
             = accounts !!! ref ++ [account]
           ∧ ∀ i, i ≠ ref →
               state_after (addAccount account) accounts !!! i = accounts !!! i)
    ∧ (∀ k (p : fin 10 * nat), outcome (findAccount k) accounts = Ok (Some p) →
         leading_digit k = Some (fin_to_nat p.1)
         ∧ ∃ a, deref accounts p = Some a ∧ getAccountNumber a = k)
    ∧ (∀ k a, lookup_account k accounts = Ok (Some a) →
         getAccountNumber a = k
         ∧ leading_digit (getAccountNumber a) = leading_digit k).
Proof.
  intros Hadds.
  destruct (dv_addAccounts_run adds DistributedVectorAccountStorage.empty Hadds)
    as (accounts & Hrun & Hbuckets).
  assert (∀ i, accounts !!! i = bucket_of i adds) as Hbucket.
  { intros i. by rewrite Hbuckets, dv_empty_lookup. }
  exists accounts. split_and!; try done.
  - intros i a. rewrite Hbucket. by intros [? _]%bucket_of_elem_of.
  - intros account (ref & Href & Hd)%getRef_digit. exists ref.
    unfold outcome, state_after. rewrite (dv_addAccount_run _ _ _ Href). cbn.
    split_and!; try done.
    + by rewrite vlookup_insert.
    + intros i Hi. by rewrite vlookup_insert_ne.
  - intros k p. unfold outcome.
    destruct (DistributedVectorAccountStorage.getRef (string_front k)) as [ref|e] eqn:Href.
    2:{ by rewrite (dv_findAccount_fault _ _ _ Href). }
    rewrite (dv_findAccount_run _ _ _ Href). cbn.
    destruct (DistributedVectorAccountStorage.scan _ _ _) as [pos|] eqn:Hscan; [|done].
    cbn. intros [= <-]. cbn. split; [by apply getRef_Ok|].
    apply scan_Some in Hscan as (a & Ha & Hk & _). eauto.
  - intros k a. unfold lookup_account.
    destruct (DistributedVectorAccountStorage.getRef (string_front k)) as [ref|e] eqn:Href.
    2:{ by rewrite (dv_findAccount_fault _ _ _ Href). }
    rewrite (dv_findAccount_run _ _ _ Href).
    destruct (DistributedVectorAccountStorage.scan _ _ _) as [pos|] eqn:Hscan; [|done].
    cbn. apply scan_Some in Hscan as (b & Hb & Hk & _). rewrite Hb.
    intros [= <-]. by rewrite Hk.
Qed.

(** C6 at a concrete input: ("1", 1), ("25", 0), ("1", 2). *)
Lemma C6_partition_witness :
  Forall (λ a, digit_leading (getAccountNumber a)) [one_first; two_zero; one_second]
  ∧ state_after (addAccounts [one_first; two_zero; one_second])
      DistributedVectorAccountStorage.empty !!! 1%fin
    = [one_first; one_second].
Proof.
  assert (Forall (λ a, digit_leading (getAccountNumber a))
            [one_first; two_zero; one_second]) as Hadds
    by (repeat constructor; by eexists).
  split; [done|].
  destruct (C6_partition [one_first; two_zero; one_second] Hadds)
    as (accounts & Hrun & Hbuckets & _).
  unfold state_after. rewrite Hrun. cbn [fst]. rewrite Hbuckets. reflexivity.
Defined.

(** Duplicates among digit-led records. Digit-led records are added to
    an empty bucketed store, and the number [k] occurs among them (twice
    or more, for instance). The find for [k] returns a pointer into the
    bucket of the leading digit of [k], at the first record with number
    [k] in that bucket; that record is the one added first with number
    [k]. The bucket holds the records in the order of the adds, and as
    many records with number [k] as were added. *)
Lemma first_duplicate_digit_led (adds : list BankAccount) (k : string) :
  Forall (λ a, digit_leading (getAccountNumber a)) adds →
  (1 ≤ length (with_number k adds))%nat →
  ∃ (accounts : vec (list BankAccount) 10) ref pos first rest,
    addAccounts adds DistributedVectorAccountStorage.empty = (accounts, Ok tt)
    ∧ leading_digit k = Some (fin_to_nat ref)
    ∧ accounts !!! ref = bucket_of ref adds
    ∧ with_number k (accounts !!! ref) = with_number k adds
    ∧ with_number k adds = first :: rest
    ∧ findAccount k accounts = (accounts, Ok (Some (ref, pos)))
    ∧ deref accounts (ref, pos) = Some first
    ∧ lookup_account k accounts = Ok (Some first)
    ∧ (∀ j b, (accounts !!! ref) !! j = Some b → (j < pos)%nat → getAccountNumber b ≠ k).
Proof.
  intros Hadds Hk.
  destruct (with_number k adds) as [|first rest] eqn:Hw; [cbn in Hk; lia|]. clear Hk.
  assert (first ∈ with_number k adds) as [Hfk Hfirst]%with_number_elem_of
    by (rewrite Hw; set_solver).
  assert (digit_leading k) as (ref & Href & Hd)%getRef_digit.
  { rewrite <-Hfk. rewrite Forall_forall in Hadds. by apply Hadds. }
  destruct (dv_addAccounts_run adds DistributedVectorAccountStorage.empty Hadds)
    as (accounts & Hrun & Hbuckets).
  assert (accounts !!! ref = bucket_of ref adds) as Hbucket.
  { by rewrite Hbuckets, dv_empty_lookup. }
  assert (with_number k (accounts !!! ref) = first :: rest) as Hwb.
  { by rewrite Hbucket, with_number_bucket_of. }
  destruct (DistributedVectorAccountStorage.scan (accounts !!! ref) k 0)
    as [pos|] eqn:Hscan.
  2:{ rewrite scan_None, <-with_number_nil in Hscan. congruence. }
  pose proof Hscan as (a & Ha & _ & Hearliest)%scan_Some.
  pose proof (scan_with_number _ _ _ _ Hscan Ha) as Hhead.
  rewrite Hwb in Hhead. injection Hhead as <-.
  exists accounts, ref, pos, first, rest. split_and!; try done.
  - by rewrite (dv_findAccount_run _ _ _ Href), Hscan.
  - by rewrite (dv_lookup_account _ _ _ Href), Hwb.
Qed.

(** At a concrete input: of ("1", 1), ("25", 0), ("1", 2) the find for
    "1" returns the record with balance 1, at position 0 of bucket 1. *)
Lemma first_duplicate_digit_led_witness :
  Forall (λ a, digit_leading (getAccountNumber a)) [one_first; two_zero; one_second]
  ∧ (1 ≤ length (with_number "1" [one_first; two_zero; one_second]))%nat
  ∧ lookup_account "1"
      (state_after (addAccounts [one_first; two_zero; one_second])
         DistributedVectorAccountStorage.empty)
    = Ok (Some one_first).
Proof.
  assert (Forall (λ a, digit_leading (getAccountNumber a))
            [one_first; two_zero; one_second]) as Hadds
    by (repeat constructor; by eexists).
  assert (1 ≤ length (with_number "1" [one_first; two_zero; one_second]))%nat as Hk
    by (vm_compute; lia).
  split; [done|]. split; [done|].
  destruct (first_duplicate_digit_led [one_first; two_zero; one_second] "1" Hadds Hk)
    as (accounts & ref & pos & first & rest & Hrun & _ & _ & _ & Hw & _ & _ & Hfind & _).
  unfold state_after. rewrite Hrun. cbn [fst]. rewrite Hfind.
  vm_compute in Hw. by injection Hw as <- _.
Defined.


(** ** C8: the three stores side by side *)

(** As long as the size of the sorted store fits an [int], the three stores
    return the same record, or all return none, for pairwise distinct
    digit-led numbers. *)
Lemma backends_agree_bounded `{StdSort} (adds : list BankAccount) (k : string) :
  NoDup (getAccountNumber <$> adds) →
  Forall (λ a, digit_leading (getAccountNumber a)) adds →
  digit_leading k →
  Z.of_nat (length adds) ≤ INT_MAX →
  lookup_account k (state_after (addAccounts adds) MapAccountStorage.empty)
  = Ok (head (with_number k adds))
  ∧ lookup_account k (state_after (addAccounts adds) DistributedVectorAccountStorage.empty)
    = Ok (head (with_number k adds))
  ∧ lookup_account k (state_after (addAccounts adds) BinarySearchStorage.empty)
    = Ok (head (with_number k adds)).
Proof.
  intros Hdistinct Hadds (ref & Href & _)%getRef_digit Hsize. split_and!.
  - rewrite map_adds_lookup_account.
    by destruct (with_number_NoDup k adds Hdistinct) as [->|[a ->]].
  - by eapply dv_adds_lookup_account.
  - unfold state_after. rewrite bs_adds_state. cbn [fst].
    destruct (with_number_NoDup k adds Hdistinct) as [Hw|[a Hw]]; rewrite Hw.
    + apply bs_lookup_account_absent; [done|]. by apply with_number_nil.
    + assert (a ∈ with_number k adds) as [Hk Ha]%with_number_elem_of
        by (rewrite Hw; set_solver).
      destruct (bs_lookup_account_present k adds Hsize) as (b & -> & Hb & Hbk);
        [by eauto|].
      assert (b ∈ with_number k adds) as Hin by (by apply with_number_elem_of).
      rewrite Hw in Hin. by apply list_elem_of_singleton in Hin as ->.
Qed.

(** C8 — where the stores disagree. [2^31 + 1] records with pairwise
    distinct digit-led numbers are added to each empty store, and the
    number "01" of the first record is looked up. The map store and the
    bucketed store return that record. The sorted store returns the null
    pointer, whatever [std::sort] does with equal numbers: the size minus
    one does not fit the [int right], which starts at [-2^31]. *)
Theorem C8_backends_disagree :
  NoDup (getAccountNumber <$> many_accounts)
  ∧ Forall (λ a, digit_leading (getAccountNumber a)) many_accounts
  ∧ digit_leading "01"
  ∧ Z.of_nat (length many_accounts) = 2 ^ 31 + 1
  ∧ int_of_size_t (size_t_expr (2 ^ 31 + 1 - 1)) = - 2 ^ 31
  ∧ lookup_account "01"
      (state_after (addAccounts many_accounts) MapAccountStorage.empty)
    = Ok (Some (numbered 0))
  ∧ lookup_account "01"
      (state_after (addAccounts many_accounts) DistributedVectorAccountStorage.empty)
    = Ok (Some (numbered 0))
  ∧ (∀ sorter : StdSort,
       findAccount "01" (state_after (addAccounts many_accounts) BinarySearchStorage.empty)
       = (std_sort many_accounts, Ok None)
       ∧ lookup_account "01"
           (state_after (addAccounts many_accounts) BinarySearchStorage.empty)
         = Ok None).
Proof.
  split; [exact many_accounts_distinct|].
  split; [exact many_accounts_digit_leading|].
  split; [by eexists|].
  split; [exact many_accounts_length|].
  split; [reflexivity|].
  split; [|split].
  - rewrite map_adds_lookup_account, many_accounts_first. reflexivity.
  - destruct (dv_adds_lookup_account many_accounts "01" 0%fin
                many_accounts_digit_leading eq_refl) as [_ ->].
    rewrite many_accounts_first. reflexivity.
  - intros sorter.
    assert (findAccount "01"
              (state_after (addAccounts many_accounts) BinarySearchStorage.empty)
            = (std_sort many_accounts, Ok None)) as Hfind.
    { unfold state_after. rewrite bs_adds_state. cbn [fst].
      apply bs_findAccount_too_many. rewrite many_accounts_length. lia. }
    split; [exact Hfind|]. unfold lookup_account. rewrite Hfind. reflexivity.
Qed.

(** ** C9: the bank in front of a store *)

(** Whatever the store behind it, [Bank::addAccount] hands the record
    made of the number and balance 0 to the store's [addAccount], ends in
    the state that call ends in, returns [true] when that call returns,
    and never returns [false]; [Bank::getAccount] is the store's
    [findAccount]. On the map store and on the sorted store it returns
    [true] for every string, on the bucketed store for every string that
    leads with a digit. *)
Lemma bank_facade_forwards `{StdSort} :
  (∀ (St : Type) (storage : IAccountStorage St) (accountNumber : string) (s : St),
     state_after (Bank.addAccount accountNumber) s
     = state_after (addAccount (mkBankAccount accountNumber 0)) s
     ∧ outcome (Bank.addAccount accountNumber) s
       = (outcome (addAccount (mkBankAccount accountNumber 0)) s ≫= λ _, Ok true)
     ∧ outcome (Bank.addAccount accountNumber) s ≠ Ok false
     ∧ Bank.getAccount accountNumber s = findAccount accountNumber s)
  ∧ (∀ accountNumber (accounts : gmap string BankAccount),
       Bank.addAccount accountNumber accounts
       = (<[accountNumber := mkBankAccount accountNumber 0]> accounts, Ok true))
  ∧ (∀ accountNumber (accounts : list BankAccount),
       Bank.addAccount accountNumber accounts
       = (accounts ++ [mkBankAccount accountNumber 0], Ok true))
  ∧ (∀ accountNumber (accounts : vec (list BankAccount) 10),
       digit_leading accountNumber →
       ∃ ref, leading_digit accountNumber = Some (fin_to_nat ref)
         ∧ Bank.addAccount accountNumber accounts
           = (vinsert ref (accounts !!! ref ++ [mkBankAccount accountNumber 0]) accounts,
              Ok true)).
Proof.
  split_and!.
  - intros St storage accountNumber s.
    unfold state_after, outcome, Bank.addAccount, Bank.getAccount, mbind, M_bind.
    unfold BankAccount_of_string.
    destruct (addAccount (mkBankAccount accountNumber 0) s) as [s' [[]|e]]; cbn; done.
  - done.
  - done.
  - intros accountNumber accounts (ref & Href & Hd)%getRef_digit. exists ref.
    split; [done|]. unfold Bank.addAccount, mbind, M_bind.
    by rewrite (dv_addAccount_run accounts (BankAccount_of_string accountNumber) ref Href).
Qed.

(** At a concrete input: "1" through the bank to the empty bucketed store. *)
Lemma bank_facade_forwards_witness :
  digit_leading "1"
  ∧ outcome (Bank.addAccount "1") DistributedVectorAccountStorage.empty = Ok true.
Proof.
  assert (digit_leading "1") as Hdigit by (by eexists).
  split; [done|].
  destruct (@bank_facade_forwards merge_StdSort) as (_ & _ & _ & Hdv).
  destruct (Hdv "1"%string DistributedVectorAccountStorage.empty Hdigit)
    as (ref & _ & Hrun).
  unfold outcome. by rewrite Hrun.
Defined.


(** ** C10: the queue *)

Section queue.
Context {T : Type} (Capacity : Z).
Hypothesis Capacity_range : 0 ≤ Capacity < 2 ^ 64.
Implicit Types (q : Queue.t T) (element : T) (a : list (option T)).

Lemma size_t_expr_small (z : Z) : 0 ≤ z < 2 ^ 64 → size_t_expr z = z.
Proof. intros Hz. unfold size_t_expr. by apply Z.mod_small. Qed.

Lemma size_t_expr_range (z : Z) : 0 ≤ size_t_expr z < 2 ^ 64.
Proof. unfold size_t_expr. apply Z.mod_pos_bound. lia. Qed.

(** With room left, [push] writes cell [end], moves [end] on around the
    array, counts the element and returns [true]. *)
Lemma push_run_room q element :
  Queue.well_formed Capacity q → Queue.size q < Capacity →
  Queue.push Capacity element q
  = ({| Queue.data := <[Z.to_nat (Queue.end_ q) := Some element]> (Queue.data q);
        Queue.start := Queue.start q;
        Queue.end_ := (Queue.end_ q + 1) `mod` Capacity;
        Queue.size := Queue.size q + 1 |}, Ok true).
Proof.
  intros (Hlen & Hsize & Hstart & Hend & Hidx) Hroom.
  destruct Hidx as [_ Hend']; [lia|].
  unfold Queue.push. run_M.
  destruct (Z.ltb_spec (Queue.size q) Capacity); [|lia].
  unfold Queue.array_store.
  destruct (Z.leb_spec 0 (Queue.end_ q)); [|lia].
  destruct (Z.ltb_spec (Queue.end_ q) Capacity); [|lia]. cbn.
  unfold size_t_rem. destruct (Z.eqb_spec Capacity 0); [lia|]. cbn.
  by rewrite !size_t_expr_small by lia.
Qed.

(** Without room, [push] returns [false] and touches nothing. *)
Lemma push_run_full q element :
  Capacity ≤ Queue.size q → Queue.push Capacity element q = (q, Ok false).
Proof.
  intros Hfull. unfold Queue.push. run_M.
  by destruct (Z.ltb_spec (Queue.size q) Capacity); [lia|].
Qed.

Lemma push_well_formed q element :
  Queue.well_formed Capacity q →
  Queue.well_formed Capacity (state_after (Queue.push Capacity element) q).
Proof.
  intros Hq. unfold state_after.
  destruct (Z.lt_ge_cases (Queue.size q) Capacity) as [Hroom|Hfull].
  - rewrite push_run_room by done. cbn.
    destruct Hq as (Hlen & Hsize & Hstart & Hend & Hidx).
    unfold Queue.well_formed. cbn. rewrite length_insert.
    pose proof (Z.mod_pos_bound (Queue.end_ q + 1) Capacity). split_and!; lia.
  - by rewrite push_run_full.
Qed.

(** The cell [pop] and [front] read is a cell of the array. *)
Lemma start_cell q :
  Queue.well_formed Capacity q → 0 < Capacity →
  (∃ x, Queue.data q !! Z.to_nat (Queue.start q) = Some (Some x))
  ∨ Queue.data q !! Z.to_nat (Queue.start q) = Some None.
Proof.
  intros (Hlen & Hsize & Hstart & Hend & Hidx) Hpos.
  destruct Hidx as [Hstart' Hend']; [done|].
  destruct (lookup_lt_is_Some_2 (Queue.data q) (Z.to_nat (Queue.start q)))
    as [[x|] Hx]; [lia|by eauto|by right].
Qed.

(** [pop] where cell [start] holds a value, whether an element is
    waiting there or not. *)
Lemma pop_run_written q x :
  Queue.well_formed Capacity q → 0 < Capacity →
  Queue.data q !! Z.to_nat (Queue.start q) = Some (Some x) →
  Queue.pop Capacity q
  = ({| Queue.data := Queue.data q;
        Queue.start := (Queue.start q + 1) `mod` Capacity;
        Queue.end_ := Queue.end_ q;
        Queue.size := size_t_expr (Queue.size q - 1) |}, Ok x).
Proof.
  intros (Hlen & Hsize & Hstart & Hend & Hidx) Hpos Hx.
  destruct Hidx as [Hstart' Hend']; [done|].
  unfold Queue.pop. run_M. unfold Queue.array_load.
  destruct (Z.leb_spec 0 (Queue.start q)); [|lia].
  destruct (Z.ltb_spec (Queue.start q) Capacity); [|lia]. cbn. rewrite Hx. cbn.
  unfold size_t_rem. destruct (Z.eqb_spec Capacity 0); [lia|]. cbn.
  by rewrite (size_t_expr_small (Queue.start q + 1)) by lia.
Qed.

(** [pop] where nothing was ever stored in cell [start]. *)
Lemma pop_run_unwritten q :
  Queue.well_formed Capacity q → 0 < Capacity →
  Queue.data q !! Z.to_nat (Queue.start q) = Some None →
  Queue.pop Capacity q = (q, Fault (IndeterminateValue (Queue.start q))).
Proof.
  intros (Hlen & Hsize & Hstart & Hend & Hidx) Hpos Hx.
  destruct Hidx as [Hstart' Hend']; [done|].
  unfold Queue.pop. run_M. unfold Queue.array_load.
  destruct (Z.leb_spec 0 (Queue.start q)); [|lia].
  destruct (Z.ltb_spec (Queue.start q) Capacity); [|lia]. cbn. by rewrite Hx.
Qed.

(** A [pop] that returns has read a value from cell [start]. *)
Lemma pop_Ok_written q x :
  Queue.well_formed Capacity q → outcome (Queue.pop Capacity) q = Ok x →
  0 < Capacity ∧ Queue.data q !! Z.to_nat (Queue.start q) = Some (Some x).
Proof.
  intros (Hlen & Hsize & Hstart & Hend & Hidx).
  unfold outcome, Queue.pop. run_M. unfold Queue.array_load.
  destruct (Z.leb_spec 0 (Queue.start q)); [|done].
  destruct (Z.ltb_spec (Queue.start q) Capacity); [cbn|done].
  destruct (Queue.data q !! Z.to_nat (Queue.start q)) as [[y|]|]; [cbn|done|done].
  unfold size_t_rem. destruct (Z.eqb_spec Capacity 0); [lia|]. cbn.
  intros [= ->]. split; [lia|done].
Qed.

Lemma pop_well_formed q x :
  Queue.well_formed Capacity q → outcome (Queue.pop Capacity) q = Ok x →
  Queue.well_formed Capacity (state_after (Queue.pop Capacity) q).
Proof.
  intros Hq Hpop. destruct (pop_Ok_written q x Hq Hpop) as [Hpos Hx].
  unfold state_after. rewrite (pop_run_written q x) by done. cbn [fst].
  destruct Hq as (Hlen & Hsize & Hstart & Hend & Hidx).
  unfold Queue.well_formed. cbn.
  pose proof (size_t_expr_range (Queue.size q - 1)).
  pose proof (Z.mod_pos_bound (Queue.start q + 1) Capacity).
  split_and!; lia.
Qed.

Lemma init_well_formed (default : option T) :
  Queue.well_formed Capacity (Queue.init Capacity default).
Proof. unfold Queue.well_formed. cbn. rewrite length_replicate. split_and!; lia. Qed.

Lemma reachable_well_formed q :
  Queue.reachable Capacity q → Queue.well_formed Capacity q.
Proof.
  induction 1 as [default|q element b _ IH _|q x _ IH Hpop].
  - apply init_well_formed.
  - by apply push_well_formed.
  - by eapply pop_well_formed.
Qed.

(** *** The cells that hold values *)

Lemma written_insert a (e i : Z) y :
  0 ≤ e → 0 ≤ i → Queue.written a i →
  Queue.written (<[Z.to_nat e := Some y]> a) i.
Proof.
  intros He Hi [x Hx]. destruct (decide (i = e)) as [->|Hne].
  - exists y. apply list_lookup_insert_eq. by eapply lookup_lt_Some.
  - exists x. by rewrite list_lookup_insert_ne by lia.
Qed.

Lemma init_filled (default : option T) :
  Queue.filled Capacity (Queue.init Capacity default).
Proof.
  destruct default as [d|].
  - left. intros i Hi. exists d. cbn. apply lookup_replicate_2. lia.
  - destruct (decide (0 < Capacity)) as [Hpos|Hzero].
    + right. cbn. split_and!; try lia. intros i Hi. apply lookup_replicate_2. lia.
    + left. intros i Hi. lia.
Qed.

Lemma push_filled q element :
  Queue.well_formed Capacity q → Queue.filled Capacity q →
  Queue.filled Capacity (state_after (Queue.push Capacity element) q).
Proof.
  intros Hq Hf. unfold state_after.
  destruct (Z.lt_ge_cases (Queue.size q) Capacity) as [Hroom|Hfull];
    [|by rewrite push_run_full].
  rewrite push_run_room by done. cbn [fst].
  destruct Hq as (Hlen & Hsize & Hstart & Hend & Hidx).
  destruct Hidx as [Hstart' Hend']; [lia|].
  assert (Queue.written (<[Z.to_nat (Queue.end_ q) := Some element]> (Queue.data q))
            (Queue.end_ q)) as Hnew.
  { exists element. apply list_lookup_insert_eq. lia. }
  destruct Hf as [Hall|(He & Hse & Hsz & Hbefore & Hafter)].
  - left. cbn. intros i Hi. apply written_insert; [lia..|]. by apply Hall.
  - destruct (decide (Queue.end_ q + 1 = Capacity)) as [Hwrap|Hnowrap].
    + left. cbn. intros i Hi. destruct (decide (i = Queue.end_ q)) as [->|Hne]; [done|].
      apply written_insert; [lia..|]. apply Hbefore. lia.
    + right. cbn. rewrite Z.mod_small by lia. split_and!; try lia.
      * intros i Hi. destruct (decide (i = Queue.end_ q)) as [->|Hne]; [done|].
        apply written_insert; [lia..|]. apply Hbefore. lia.
      * intros i Hi. rewrite list_lookup_insert_ne by lia. apply Hafter. lia.
Qed.

Lemma pop_filled q x :
  Queue.well_formed Capacity q → Queue.filled Capacity q →
  outcome (Queue.pop Capacity) q = Ok x →
  Queue.filled Capacity (state_after (Queue.pop Capacity) q).
Proof.
  intros Hq Hf Hpop. destruct (pop_Ok_written q x Hq Hpop) as [Hpos Hx].
  unfold state_after. rewrite (pop_run_written q x) by done. cbn [fst].
  destruct Hq as (Hlen & Hsize & Hstart & Hend & Hidx).
  destruct Hf as [Hall|(He & Hse & Hsz & Hbefore & Hafter)]; [by left|].
  assert (Queue.start q < Queue.end_ q) as Hlt.
  { destruct (Z.lt_ge_cases (Queue.start q) (Queue.end_ q)) as [|Hge]; [done|].
    rewrite Hafter in Hx by lia. done. }
  right. cbn. rewrite Z.mod_small, size_t_expr_small by lia. split_and!; try done; lia.
Qed.

Lemma reachable_filled q : Queue.reachable Capacity q → Queue.filled Capacity q.
Proof.
  induction 1 as [default|q element b Hq IH _|q x Hq IH Hpop].
  - apply init_filled.
  - apply push_filled; [by apply reachable_well_formed|done].
  - eapply pop_filled; [by apply reachable_well_formed|done..].
Qed.

(** *** The waiting elements *)

Lemma cells_length a (i : Z) (n : nat) :
  0 < Capacity → 0 ≤ i < Capacity →
  (∀ j, 0 ≤ j < Z.of_nat n → Queue.written a ((i + j) `mod` Capacity)) →
  length (Queue.cells Capacity a i n) = n.
Proof.
  intros Hpos. revert i. induction n as [|n IH]; intros i Hi Hw; [done|].
  cbn [Queue.cells].
  destruct (Hw 0) as [x Hx]; [lia|].
  rewrite Z.add_0_r, Z.mod_small in Hx by done. rewrite Hx.
  cbn. f_equal. apply IH; [apply Z.mod_pos_bound; lia|].
  intros j Hj. rewrite Z.add_mod_idemp_l by lia.
  replace (i + 1 + j) with (i + (j + 1)) by lia. apply Hw. lia.
Qed.

Lemma cells_snoc a (i : Z) (n : nat) y :
  0 < Capacity → 0 ≤ i < Capacity →
  length (Queue.cells Capacity a i n) = n →
  a !! Z.to_nat ((i + Z.of_nat n) `mod` Capacity) = Some (Some y) →
  Queue.cells Capacity a i (S n) = Queue.cells Capacity a i n ++ [y].
Proof.
  intros Hpos. revert i. induction n as [|n IH]; intros i Hi Hlen Hy.
  - cbn in *. rewrite Z.add_0_r, Z.mod_small in Hy by done. by rewrite Hy.
  - cbn [Queue.cells] in Hlen |- *.
    destruct (a !! Z.to_nat i) as [[x|]|]; [|done..].
    cbn [app]. f_equal. cbn [length] in Hlen.
    assert (0 ≤ (i + 1) `mod` Capacity < Capacity) as Hnext
      by (apply Z.mod_pos_bound; lia).
    rewrite <-(IH _ Hnext); [done|lia|].
    rewrite Z.add_mod_idemp_l by lia.
    by replace (i + 1 + Z.of_nat n) with (i + Z.of_nat (S n)) by lia.
Qed.

Lemma cells_insert_other a (e i : Z) (n : nat) y :
  0 < Capacity → 0 ≤ i < Capacity → 0 ≤ e →
  (∀ j, 0 ≤ j < Z.of_nat n → (i + j) `mod` Capacity ≠ e) →
  Queue.cells Capacity (<[Z.to_nat e := Some y]> a) i n = Queue.cells Capacity a i n.
Proof.
  intros Hpos Hi He. revert i Hi. induction n as [|n IH]; intros i Hi Hother; [done|].
  cbn [Queue.cells].
  assert (i ≠ e) as Hie.
  { specialize (Hother 0). rewrite Z.add_0_r, Z.mod_small in Hother by done.
    apply Hother. lia. }
  rewrite list_lookup_insert_ne by lia.
  destruct (a !! Z.to_nat i) as [[x|]|]; [|done..]. f_equal.
  apply IH; [apply Z.mod_pos_bound; lia|].
  intros j Hj. rewrite Z.add_mod_idemp_l by lia.
  replace (i + 1 + j) with (i + (j + 1)) by lia. apply Hother. lia.
Qed.

(** In every state a queue object can reach, all of the [size] cells
    from [start] on hold values. *)
Lemma reachable_contents_length q :
  Queue.reachable Capacity q → 0 < Capacity →
  length (Queue.contents Capacity q) = Z.to_nat (Queue.size q).
Proof.
  intros Hr Hpos.
  pose proof (reachable_well_formed q Hr) as (Hlen & Hsize & Hstart & Hend & Hidx).
  destruct Hidx as [Hstart' Hend']; [done|].
  unfold Queue.contents. apply cells_length; [done|lia|].
  intros j Hj.
  destruct (reachable_filled q Hr) as [Hall|(He & Hse & Hsz & Hbefore & Hafter)].
  - apply Hall. apply Z.mod_pos_bound. lia.
  - rewrite Z.mod_small by lia. apply Hbefore. lia.
Qed.

(** The oldest waiting element is in cell [start]. *)
Lemma waiting_head q :
  length (Queue.contents Capacity q) = Z.to_nat (Queue.size q) → 0 < Queue.size q →
  ∃ x, Queue.data q !! Z.to_nat (Queue.start q) = Some (Some x)
    ∧ Queue.contents Capacity q
      = x :: Queue.cells Capacity (Queue.data q) ((Queue.start q + 1) `mod` Capacity)
               (Z.to_nat (Queue.size q - 1)).
Proof.
  unfold Queue.contents. intros Hlen Hpos. revert Hlen.
  replace (Z.to_nat (Queue.size q)) with (S (Z.to_nat (Queue.size q - 1))) by lia.
  cbn [Queue.cells].
  destruct (Queue.data q !! Z.to_nat (Queue.start q)) as [[x|]|]; [|done..].
  intros _. by exists x.
Qed.

(** When [end] is [size] cells after [start] and those cells hold the
    waiting elements, a push with room left puts the element behind
    them. *)
Lemma push_contents q element :
  Queue.well_formed Capacity q → Queue.size q < Capacity →
  Queue.end_ q = (Queue.start q + Queue.size q) `mod` Capacity →
  length (Queue.contents Capacity q) = Z.to_nat (Queue.size q) →
  Queue.contents Capacity (state_after (Queue.push Capacity element) q)
  = Queue.contents Capacity q ++ [element].
Proof.
  intros Hq Hroom Hend Hwaiting. unfold state_after. rewrite push_run_room by done.
  destruct Hq as (Hlen & Hsize & Hstart & Hend0 & Hidx).
  destruct Hidx as [Hstart' Hend']; [lia|].
  unfold Queue.contents in *. cbn.
  replace (Z.to_nat (Queue.size q + 1)) with (S (Z.to_nat (Queue.size q))) by lia.
  assert (Queue.cells Capacity
            (<[Z.to_nat (Queue.end_ q) := Some element]> (Queue.data q))
            (Queue.start q) (Z.to_nat (Queue.size q))
          = Queue.cells Capacity (Queue.data q) (Queue.start q)
              (Z.to_nat (Queue.size q))) as Hother.
  { apply cells_insert_other; try lia.
    intros j Hj Heq. rewrite Hend in Heq.
    assert ((Queue.size q - j) `mod` Capacity = 0) as Hzero.
    { replace (Queue.size q - j)
        with ((Queue.start q + Queue.size q) - (Queue.start q + j)) by lia.
      rewrite Zminus_mod, Heq, Z.sub_diag. by apply Z.mod_0_l; lia. }
    rewrite Z.mod_small in Hzero by lia. lia. }
  rewrite (cells_snoc _ _ _ element); [by rewrite Hother|lia|lia| |].
  - by rewrite Hother.
  - rewrite Z2Nat.id, <-Hend by lia. apply list_lookup_insert_eq. lia.
Qed.

(** In orderly use the state is one a queue object can reach, [size]
    stays within [Capacity] and [end] stays [size] cells after [start]. *)
Lemma orderly_facts q :
  Queue.orderly Capacity q →
  Queue.reachable Capacity q
  ∧ Queue.size q ≤ Capacity
  ∧ (0 < Capacity →
     Queue.end_ q = (Queue.start q + Queue.size q) `mod` Capacity).
Proof.
  induction 1 as [default|q element _ (Hr & Hle & Hend)|q _ (Hr & Hle & Hend) Hpos].
  - split; [constructor|]. cbn. split; [lia|]. intros HC. by rewrite Z.mod_0_l by lia.
  - pose proof (reachable_well_formed q Hr) as Hq.
    destruct (Z.lt_ge_cases (Queue.size q) Capacity) as [Hroom|Hfull].
    + split.
      { apply (Queue.reachable_push _ _ _ true); [done|].
        unfold outcome. by rewrite push_run_room. }
      unfold state_after. rewrite push_run_room by done. cbn. split; [lia|].
      intros HC. rewrite Hend by done. rewrite Z.add_mod_idemp_l by lia. f_equal. lia.
    + split.
      { apply (Queue.reachable_push _ _ _ false); [done|].
        unfold outcome. by rewrite push_run_full. }
      unfold state_after. by rewrite push_run_full.
  - pose proof (reachable_well_formed q Hr) as Hq.
    assert (0 < Capacity) as HC by lia.
    destruct (waiting_head q) as (x & Hx & _);
      [by apply reachable_contents_length|done|].
    pose proof (pop_run_written q x Hq HC Hx) as Hpop.
    split.
    { apply (Queue.reachable_pop _ _ x); [done|]. unfold outcome. by rewrite Hpop. }
    unfold state_after. rewrite Hpop. cbn.
    destruct Hq as (_ & Hsize & _).
    rewrite size_t_expr_small by lia. split; [lia|]. intros _.
    rewrite Hend by done. rewrite Z.add_mod_idemp_l by lia. f_equal. lia.
Qed.

Lemma orderly_reachable q : Queue.orderly Capacity q → Queue.reachable Capacity q.
Proof. by intros (Hr & _)%orderly_facts. Qed.

Lemma orderly_invariant q :
  Queue.orderly Capacity q →
  Queue.well_formed Capacity q
  ∧ Queue.size q ≤ Capacity
  ∧ (0 < Capacity →
     Queue.end_ q = (Queue.start q + Queue.size q) `mod` Capacity).
Proof.
  intros (Hr & Hle & Hend)%orderly_facts. split; [by apply reachable_well_formed|done].
Qed.

(** In orderly use [size] is the number of waiting elements. *)
Lemma orderly_contents_length q :
  Queue.orderly Capacity q →
  Z.of_nat (length (Queue.contents Capacity q)) = Queue.size q.
Proof.
  intros Hq. destruct (orderly_facts q Hq) as (Hr & Hle & _).
  pose proof (reachable_well_formed q Hr) as (_ & Hsize & _).
  destruct (decide (Queue.size q = 0)) as [Hzero|Hne].
  - unfold Queue.contents. by rewrite Hzero.
  - rewrite reachable_contents_length by (done || lia). lia.
Qed.
End queue.

(** C10 — [Queue::push]. In every state a queue object can reach: with
    [size < Capacity] the push returns [true], stores the element in cell
    [end], moves [end] one cell on around the array, adds one to [size]
    and leaves [start] alone, so that the element waits behind the others
    (where [end] is [size] cells after [start], as it is whenever [pop]
    was only called on a queue holding an element); with [size == Capacity]
    it returns [false] and leaves [data], [start], [end] and [size] as
    they were. Hence no push, and no run of pushes, takes [size] from at
    most [Capacity] to more than [Capacity]. *)
Theorem C10_queue_push {T : Type} (Capacity : Z) (q : Queue.t T) (element : T) :
  0 ≤ Capacity < 2 ^ 64 →
  Queue.reachable Capacity q →
  (Queue.size q < Capacity →
     Queue.push Capacity element q
     = ({| Queue.data := <[Z.to_nat (Queue.end_ q) := Some element]> (Queue.data q);
           Queue.start := Queue.start q;
           Queue.end_ := (Queue.end_ q + 1) `mod` Capacity;
           Queue.size := Queue.size q + 1 |}, Ok true)
     ∧ Queue.data (state_after (Queue.push Capacity element) q) !! Z.to_nat (Queue.end_ q)
       = Some (Some element)
     ∧ (Queue.end_ q = (Queue.start q + Queue.size q) `mod` Capacity
        ∨ Queue.orderly Capacity q →
        Queue.contents Capacity (state_after (Queue.push Capacity element) q)
        = Queue.contents Capacity q ++ [element]))
  ∧ (Queue.size q = Capacity → Queue.push Capacity element q = (q, Ok false))
  ∧ (Queue.size q ≤ Capacity →
     Queue.size (state_after (Queue.push Capacity element) q) ≤ Capacity
     ∧ ∀ elements : list T,
         Queue.size (foldl (λ q' x, state_after (Queue.push Capacity x) q') q elements)
         ≤ Capacity).
Proof.
  intros HCapacity Hr.
  pose proof (reachable_well_formed Capacity HCapacity q Hr) as Hq. split_and!.
  - intros Hroom.
    assert (0 < Capacity) as Hpos by (destruct Hq as (_ & Hsize & _); lia).
    pose proof (reachable_contents_length Capacity HCapacity q Hr Hpos) as Hwaiting.
    split_and!.
    + by apply push_run_room.
    + unfold state_after. rewrite push_run_room by done. cbn.
      destruct Hq as (Hlen & Hsize & Hstart & Hend & Hidx).
      apply list_lookup_insert_eq. lia.
    + intros [Hend|Hord]; [by apply push_contents|].
      apply orderly_invariant in Hord as (_ & _ & Hend); [|done].
      apply push_contents; [done..| |done].
      by apply Hend.
  - intros Hfull. apply push_run_full. lia.
  - assert (∀ (q' : Queue.t T) x,
              Queue.well_formed Capacity q' → Queue.size q' ≤ Capacity →
                    Queue.size (state_after (Queue.push Capacity x) q') ≤ Capacity)
      as Hstep.
    { intros q' x Hq' Hle. unfold state_after.
      destruct (Z.lt_ge_cases (Queue.size q') Capacity) as [Hroom|Hfull].
      - rewrite push_run_room by done. cbn. lia.
      - by rewrite push_run_full. }
    intros Hle. split; [by apply Hstep|].
    intros elements. clear Hr. revert q Hq Hle.
    induction elements as [|x elements IH]; intros q Hq Hle; [done|].
    cbn [foldl]. apply IH; [by apply push_well_formed|by apply Hstep].
Qed.

(** C10 at a concrete input: 7 pushed on a fresh queue of two cells that
    hold nothing yet. *)
Lemma C10_queue_push_witness :
  0 ≤ 2 < 2 ^ 64
  ∧ Queue.reachable 2 (Queue.init 2 (@None nat))
  ∧ Queue.push 2 7%nat (Queue.init 2 None)
    = ({| Queue.data := [Some 7%nat; None]; Queue.start := 0;
          Queue.end_ := 1; Queue.size := 1 |}, Ok true).
Proof.
  assert (0 ≤ 2 < 2 ^ 64) as HCapacity by lia.
  assert (Queue.reachable 2 (Queue.init 2 (@None nat))) as Hq
    by apply Queue.reachable_init.
  split; [done|]. split; [done|].
  destruct (C10_queue_push 2 (Queue.init 2 None) 7%nat HCapacity Hq)
    as (Hroom & _).
  destruct Hroom as (Hpush & _); [by vm_compute|]. exact Hpush.
Defined.

(** * More of the code *)

(** ** The queue in use *)

Section queue_use.
Context {T : Type} (Capacity : Z).
Hypothesis Capacity_range : 0 ≤ Capacity < 2 ^ 64.
Implicit Types (q : Queue.t T) (element : T).

(** [pop] on a queue that holds an element hands out the oldest one. *)
Lemma pop_contents q :
  Queue.orderly Capacity q → 0 < Queue.size q →
  ∃ x q', Queue.pop Capacity q = (q', Ok x)
    ∧ Queue.contents Capacity q = x :: Queue.contents Capacity q'
    ∧ Queue.size q' = Queue.size q - 1
    ∧ Queue.orderly Capacity q'.
Proof.
  intros Hq Hpos.
  destruct (orderly_invariant Capacity Capacity_range q Hq) as (Hwf & Hle & _).
  pose proof (orderly_contents_length Capacity Capacity_range q Hq) as Hlen.
  destruct (waiting_head Capacity q) as (x & Hx & Hc); [lia|done|].
  pose proof (pop_run_written Capacity Capacity_range q x Hwf ltac:(lia) Hx) as Hpop.
  exists x. eexists. split; [exact Hpop|].
  destruct Hwf as (_ & Hsize & _). cbn. rewrite size_t_expr_small by lia.
  split_and!; [done|done|].
  pose proof (Queue.orderly_pop Capacity q Hq Hpos) as Hq'.
  unfold state_after in Hq'. rewrite Hpop in Hq'. cbn in Hq'.
  by rewrite size_t_expr_small in Hq' by lia.
Qed.

(** A run of pushes: the elements that still fit are taken, in order,
    and the others are turned away. *)
Lemma push_all_run q (elements : list T) :
  Queue.orderly Capacity q →
  ∃ q', push_all Capacity elements q
        = (q', Ok (replicate (length elements `min` Z.to_nat (Capacity - Queue.size q)) true
                   ++ replicate (length elements - Z.to_nat (Capacity - Queue.size q)) false))
    ∧ Queue.orderly Capacity q'
    ∧ Queue.contents Capacity q'
      = Queue.contents Capacity q ++ take (Z.to_nat (Capacity - Queue.size q)) elements.
Proof.
  revert q. induction elements as [|x elements IH]; intros q Hq.
  - exists q. cbn. rewrite take_nil, app_nil_r. done.
  - destruct (orderly_invariant Capacity Capacity_range q Hq) as (Hwf & Hle & Hend).
    pose proof (orderly_contents_length Capacity Capacity_range q Hq) as Hlen.
    assert (0 ≤ Queue.size q) as Hsize by (destruct Hwf as (_ & ? & _); lia).
    pose proof (Queue.orderly_push Capacity q x Hq) as Hq1.
    cbn [push_all]. unfold mbind at 1, M_bind at 1.
    destruct (Z.lt_ge_cases (Queue.size q) Capacity) as [Hroom|Hfull].
    + pose proof (push_contents Capacity Capacity_range q x Hwf Hroom) as Hc.
      unfold state_after in Hq1, Hc. rewrite push_run_room in * by done.
      cbn [fst] in Hq1, Hc. specialize (Hc (Hend ltac:(lia)) ltac:(lia)).
      destruct (IH _ Hq1) as (q' & Hrun & Hq' & Hc').
      exists q'. unfold mbind, M_bind. rewrite Hrun. cbn [Queue.size] in *.
      replace (Z.to_nat (Capacity - Queue.size q))
        with (S (Z.to_nat (Capacity - (Queue.size q + 1)))) by lia.
      split_and!; [|done|].
      * cbn. done.
      * rewrite Hc', Hc. cbn. by rewrite <-app_assoc.
    + rewrite push_run_full by done.
      destruct (IH _ Hq) as (q' & Hrun & Hq' & Hc').
      exists q'. unfold mbind, M_bind. rewrite Hrun.
      replace (Z.to_nat (Capacity - Queue.size q)) with 0%nat in * by lia.
      rewrite Nat.min_0_r, Nat.sub_0_r in *. cbn [replicate app] in *.
      split_and!; [|done|].
      * cbn. done.
      * rewrite Hc'. by rewrite !take_0.
Qed.

(** A run of pops on a queue that holds that many elements. *)
Lemma pop_n_run q (n : nat) :
  Queue.orderly Capacity q → Z.of_nat n ≤ Queue.size q →
  ∃ q', pop_n Capacity n q = (q', Ok (take n (Queue.contents Capacity q)))
    ∧ Queue.orderly Capacity q'
    ∧ Queue.contents Capacity q' = drop n (Queue.contents Capacity q)
    ∧ Queue.size q' = Queue.size q - Z.of_nat n.
Proof.
  revert q. induction n as [|n IH]; intros q Hq Hn.
  - exists q. cbn. split_and!; try done. lia.
  - destruct (pop_contents q Hq) as (x & q1 & Hpop & Hc & Hsize & Hq1); [lia|].
    destruct (IH q1 Hq1) as (q' & Hrun & Hq' & Hc' & Hsize'); [lia|].
    exists q'. cbn [pop_n]. unfold mbind, M_bind. rewrite Hpop, Hrun, Hc.
    split_and!; try done. lia.
Qed.

(** [front] reads cell [start] and changes nothing. *)
Lemma front_run q :
  Queue.well_formed Capacity q → 0 < Capacity →
  Queue.front Capacity q
  = (q, match Queue.data q !! Z.to_nat (Queue.start q) with
        | Some (Some x) => Ok x
        | _ => Fault (IndeterminateValue (Queue.start q))
        end).
Proof.
  intros Hq Hpos. pose proof (start_cell Capacity q Hq Hpos) as Hcell.
  destruct Hq as (Hlen & Hsize & Hstart & Hend & Hidx).
  destruct Hidx as [Hstart' _]; [done|].
  unfold Queue.front. run_M. unfold Queue.array_load.
  destruct (Z.leb_spec 0 (Queue.start q)); [|lia].
  destruct (Z.ltb_spec (Queue.start q) Capacity); [|lia]. cbn.
  by destruct Hcell as [[x ->]| ->].
Qed.

(** [pop] ends as [front] does. *)
Lemma pop_outcome q :
  Queue.well_formed Capacity q → 0 < Capacity →
  outcome (Queue.pop Capacity) q
  = match Queue.data q !! Z.to_nat (Queue.start q) with
    | Some (Some x) => Ok x
    | _ => Fault (IndeterminateValue (Queue.start q))
    end.
Proof.
  intros Hq Hpos. unfold outcome.
  destruct (start_cell Capacity q Hq Hpos) as [[x Hx]|Hx]; rewrite Hx.
  - by rewrite (pop_run_written Capacity Capacity_range q x).
  - by rewrite (pop_run_unwritten Capacity q).
Qed.
End queue_use.

(** X1 — [Queue::pop] hands out the oldest element. On a queue used in
    order that holds at least one element, [pop] returns the element at
    the head of the waiting ones, the others keep waiting in their order,
    and [size] goes down by one. *)
Theorem X1_queue_pop_oldest {T : Type} (Capacity : Z) (q : Queue.t T) :
  0 ≤ Capacity < 2 ^ 64 →
  Queue.orderly Capacity q → 0 < Queue.size q →
  ∃ x rest,
    Queue.contents Capacity q = x :: rest
    ∧ outcome (Queue.pop Capacity) q = Ok x
    ∧ Queue.contents Capacity (state_after (Queue.pop Capacity) q) = rest
    ∧ Queue.size (state_after (Queue.pop Capacity) q) = Queue.size q - 1
    ∧ Queue.orderly Capacity (state_after (Queue.pop Capacity) q).
Proof.
  intros HC Hq Hpos.
  destruct (pop_contents Capacity HC q Hq Hpos) as (x & q' & Hpop & Hc & Hsize & Hq').
  exists x, (Queue.contents Capacity q'). unfold outcome, state_after. rewrite Hpop.
  done.
Qed.

(** X1 at a concrete input: 7 then 8 pushed on a fresh queue of two
    cells; the pop returns 7 and 8 keeps waiting. *)
Lemma X1_queue_pop_oldest_witness :
  0 ≤ 2 < 2 ^ 64
  ∧ outcome (Queue.pop 2)
      (state_after (Queue.push 2 8%nat)
         (state_after (Queue.push 2 7%nat) (Queue.init 2 None)))
    = Ok 7%nat.
Proof.
  assert (0 ≤ 2 < 2 ^ 64) as HC by lia.
  assert (Queue.orderly 2
            (state_after (Queue.push 2 8%nat)
               (state_after (Queue.push 2 7%nat) (Queue.init 2 None)))) as Hq
    by (do 2 apply Queue.orderly_push; apply Queue.orderly_init).
  split; [done|].
  destruct (X1_queue_pop_oldest 2 _ HC Hq) as (x & rest & Hc & Hpop & _);
    [by vm_compute|].
  rewrite Hpop. vm_compute in Hc. by injection Hc as <- _.
Defined.

(** X2 — first in, first out, with the overflow turned away. Elements are
    pushed one after the other on a queue used in order. As many of them
    as there is room for are accepted ([push] returns [true]) and wait
    behind the elements already there; every later push returns [false].
    Popping as many elements as are then waiting returns the old elements
    followed by the accepted ones, in the order of their pushes, and
    leaves the queue empty. *)
Theorem X2_queue_fifo {T : Type} (Capacity : Z) (q : Queue.t T) (elements : list T) :
  0 ≤ Capacity < 2 ^ 64 →
  Queue.orderly Capacity q →
  outcome (push_all Capacity elements) q
  = Ok (replicate (length elements `min` Z.to_nat (Capacity - Queue.size q)) true
        ++ replicate (length elements - Z.to_nat (Capacity - Queue.size q)) false)
  ∧ Queue.contents Capacity (state_after (push_all Capacity elements) q)
    = Queue.contents Capacity q ++ take (Z.to_nat (Capacity - Queue.size q)) elements
  ∧ outcome
      (push_all Capacity elements;;
       pop_n Capacity
         (length (Queue.contents Capacity q
                  ++ take (Z.to_nat (Capacity - Queue.size q)) elements)))
      q
    = Ok (Queue.contents Capacity q ++ take (Z.to_nat (Capacity - Queue.size q)) elements)
  ∧ Queue.size
      (state_after
         (push_all Capacity elements;;
          pop_n Capacity
            (length (Queue.contents Capacity q
                     ++ take (Z.to_nat (Capacity - Queue.size q)) elements)))
         q)
    = 0.
Proof.
  intros HC Hq.
  destruct (push_all_run Capacity HC q elements Hq) as (q1 & Hpush & Hq1 & Hc1).
  unfold outcome, state_after, mbind, M_bind. rewrite Hpush. cbn [fst snd].
  split; [done|]. split; [done|].
  pose proof (orderly_contents_length Capacity HC q1 Hq1) as Hlen1.
  rewrite <-Hc1.
  destruct (pop_n_run Capacity HC q1 (length (Queue.contents Capacity q1)) Hq1)
    as (q2 & Hpop & _ & _ & Hsize2); [lia|].
  rewrite Hpop. cbn [fst snd]. rewrite firstn_all. split; [done|]. lia.
Qed.

(** X2 at a concrete input: 7, 8 and 9 pushed on a fresh queue of two
    cells; 9 is turned away, and two pops return 7 and 8. *)
Lemma X2_queue_fifo_witness :
  0 ≤ 2 < 2 ^ 64
  ∧ Queue.orderly 2 (Queue.init 2 (@None nat))
  ∧ outcome (push_all 2 [7%nat; 8%nat; 9%nat]) (Queue.init 2 None)
    = Ok [true; true; false]
  ∧ outcome (push_all 2 [7%nat; 8%nat; 9%nat];; pop_n 2 2) (Queue.init 2 None)
    = Ok [7%nat; 8%nat].
Proof.
  assert (0 ≤ 2 < 2 ^ 64) as HC by lia.
  assert (Queue.orderly 2 (Queue.init 2 (@None nat))) as Hq
    by apply Queue.orderly_init.
  split; [done|]. split; [done|].
  destruct (X2_queue_fifo 2 (Queue.init 2 None) [7%nat; 8%nat; 9%nat] HC Hq)
    as (Hpush & _ & Hpop & _).
  split; [exact Hpush|exact Hpop].
Defined.

(** X3 — [Queue::front] only looks. In every state a queue with at least
    one cell can reach, [front] leaves the queue as it is and ends as the
    next [pop] would: it returns the value in cell [start] if that cell
    holds one, and it reads an indeterminate value if nothing was stored
    there, as on a fresh queue whose cells start out indeterminate. On a
    queue used in order that holds an element, [front] returns the oldest
    waiting element. *)
Theorem X3_queue_front {T : Type} (Capacity : Z) (q : Queue.t T) :
  0 < Capacity < 2 ^ 64 →
  Queue.reachable Capacity q →
  state_after (Queue.front Capacity) q = q
  ∧ outcome (Queue.front Capacity) q = outcome (Queue.pop Capacity) q
  ∧ outcome (Queue.front Capacity) q
    = match Queue.data q !! Z.to_nat (Queue.start q) with
      | Some (Some x) => Ok x
      | _ => Fault (IndeterminateValue (Queue.start q))
      end
  ∧ (Queue.orderly Capacity q → 0 < Queue.size q →
     ∃ x rest, Queue.contents Capacity q = x :: rest
       ∧ outcome (Queue.front Capacity) q = Ok x)
  ∧ Queue.front Capacity (Queue.init Capacity (@None T))
    = (Queue.init Capacity None, Fault (IndeterminateValue 0)).
Proof.
  intros HC Hq.
  assert (0 ≤ Capacity < 2 ^ 64) as HC' by lia.
  pose proof (reachable_well_formed Capacity HC' q Hq) as Hwf.
  unfold state_after, outcome.
  rewrite (front_run Capacity q Hwf) by lia. cbn [fst snd].
  split; [done|]. split; [symmetry; apply (pop_outcome Capacity HC' q Hwf); lia|].
  split; [done|]. split.
  - intros Hord Hpos.
    pose proof (orderly_contents_length Capacity HC' q Hord) as Hlen.
    destruct (waiting_head Capacity q) as (x & Hx & Hc); [lia|done|].
    rewrite Hx. eauto.
  - rewrite front_run by (apply init_well_formed || lia). cbn.
    rewrite lookup_replicate_2 by lia. done.
Qed.

(** X3 at a concrete input: after 7 and 8 are pushed on a fresh queue of
    two cells, [front] returns 7 and leaves both waiting. *)
Lemma X3_queue_front_witness :
  0 < 2 < 2 ^ 64
  ∧ Queue.front 2
      (state_after (Queue.push 2 8%nat)
         (state_after (Queue.push 2 7%nat) (Queue.init 2 None)))
    = (state_after (Queue.push 2 8%nat)
         (state_after (Queue.push 2 7%nat) (Queue.init 2 None)), Ok 7%nat).
Proof.
  assert (0 < 2 < 2 ^ 64) as HC by lia.
  assert (Queue.orderly 2
            (state_after (Queue.push 2 8%nat)
               (state_after (Queue.push 2 7%nat) (Queue.init 2 None)))) as Hq
    by (do 2 apply Queue.orderly_push; apply Queue.orderly_init).
  split; [done|].
  destruct (X3_queue_front 2 _ HC (orderly_reachable 2 ltac:(lia) _ Hq))
    as (Hstate & _ & _ & Hhead & _).
  destruct (Hhead Hq) as (x & rest & Hc & Hfront); [by vm_compute|].
  vm_compute in Hc. injection Hc as <- _.
  unfold state_after, outcome in Hstate, Hfront.
  destruct (Queue.front 2 _) as [q' r]. cbn in Hstate, Hfront. by subst.
Defined.

(** X4 — the three questions a queue answers. On a queue used in order,
    [getSize] is the number of waiting elements, [isEmpty] says whether
    none is waiting, [isFull] says whether [Capacity] of them are, and a
    push is turned away exactly when [isFull] says yes. None of the three
    changes the queue. *)
Theorem X4_queue_observers {T : Type} (Capacity : Z) (q : Queue.t T) (element : T) :
  0 ≤ Capacity < 2 ^ 64 →
  Queue.orderly Capacity q →
  Queue.getSize q = (q, Ok (Z.of_nat (length (Queue.contents Capacity q))))
  ∧ Queue.isEmpty q = (q, Ok (bool_decide (Queue.contents Capacity q = [])))
  ∧ Queue.isFull Capacity q
    = (q, Ok (bool_decide (Z.of_nat (length (Queue.contents Capacity q)) = Capacity)))
  ∧ Z.of_nat (length (Queue.contents Capacity q)) ≤ Capacity
  ∧ outcome (Queue.push Capacity element) q
    = (outcome (Queue.isFull Capacity) q ≫= λ full, Ok (negb full)).
Proof.
  intros HC Hq.
  pose proof (orderly_contents_length Capacity HC q Hq) as Hlen.
  destruct (orderly_invariant Capacity HC q Hq) as (Hwf & Hle & _).
  unfold Queue.getSize, Queue.isEmpty, Queue.isFull, outcome. run_M.
  rewrite Hlen. split_and!; try done.
  - do 2 f_equal. destruct (Queue.contents Capacity q) eqn:Hc; cbn in Hlen.
    + rewrite bool_decide_true by done. by apply Z.eqb_eq.
    + rewrite bool_decide_false by done. apply Z.eqb_neq. lia.
  - do 2 f_equal. destruct (Z.eqb_spec (Queue.size q) Capacity).
    + by rewrite bool_decide_true.
    + by rewrite bool_decide_false.
  - destruct (Z.lt_ge_cases (Queue.size q) Capacity) as [Hroom|Hfull].
    + rewrite push_run_room by done. cbn.
      by destruct (Z.eqb_spec (Queue.size q) Capacity); [lia|].
    + rewrite push_run_full by done. cbn.
      by destruct (Z.eqb_spec (Queue.size q) Capacity); [|lia].
Qed.

(** X4 at a concrete input: a queue of two cells holding 7 and 8 is full. *)
Lemma X4_queue_observers_witness :
  0 ≤ 2 < 2 ^ 64
  ∧ outcome (Queue.isFull 2)
      (state_after (Queue.push 2 8%nat)
         (state_after (Queue.push 2 7%nat) (Queue.init 2 None)))
    = Ok true.
Proof.
  assert (0 ≤ 2 < 2 ^ 64) as HC by lia.
  assert (Queue.orderly 2
            (state_after (Queue.push 2 8%nat)
               (state_after (Queue.push 2 7%nat) (Queue.init 2 None)))) as Hq
    by (do 2 apply Queue.orderly_push; apply Queue.orderly_init).
  split; [done|].
  destruct (X4_queue_observers 2 _ 9%nat HC Hq) as (_ & _ & Hfull & _).
  unfold outcome. rewrite Hfull. reflexivity.
Defined.

(** X5 — no call subscripts the array out of range. Whatever run of
    [push], [pop] and [front] calls is made on a fresh queue with at
    least one cell, [start] and [end] stay indices of the array, and the
    run ends in one of two ways: every call returns, or a [pop] or
    [front] reads a cell of the array in which nothing was stored yet
    (an indeterminate value) and the run stops there. Every call returns
    when the cells start out holding values (a [T] with a default
    constructor), and when the run consists of pushes. *)
Theorem X5_queue_calls_in_range {T : Type} (Capacity : Z) (default : option T)
    (l : list (queue_call T)) :
  0 < Capacity < 2 ^ 64 →
  (outcome (calls Capacity l) (Queue.init Capacity default) = Ok tt
   ∨ ∃ i, 0 ≤ i < Capacity
       ∧ outcome (calls Capacity l) (Queue.init Capacity default)
         = Fault (IndeterminateValue i))
  ∧ (is_Some default →
     outcome (calls Capacity l) (Queue.init Capacity default) = Ok tt)
  ∧ ((∀ call, call ∈ l → ∃ element, call = CallPush element) →
     outcome (calls Capacity l) (Queue.init Capacity default) = Ok tt)
  ∧ Queue.well_formed Capacity (state_after (calls Capacity l) (Queue.init Capacity default))
  ∧ 0 ≤ Queue.start (state_after (calls Capacity l) (Queue.init Capacity default))
    < Capacity
  ∧ 0 ≤ Queue.end_ (state_after (calls Capacity l) (Queue.init Capacity default))
    < Capacity.
Proof.
  intros HC. assert (0 ≤ Capacity < 2 ^ 64) as HC' by lia.
  assert (∀ q, Queue.well_formed Capacity q →
               (outcome (calls Capacity l) q = Ok tt
                ∨ ∃ i, 0 ≤ i < Capacity
                    ∧ outcome (calls Capacity l) q = Fault (IndeterminateValue i))
               ∧ ((∀ i, 0 ≤ i < Capacity → Queue.written (Queue.data q) i) →
                  outcome (calls Capacity l) q = Ok tt)
               ∧ ((∀ call, call ∈ l → ∃ element, call = CallPush element) →
                  outcome (calls Capacity l) q = Ok tt)
               ∧ Queue.well_formed Capacity (state_after (calls Capacity l) q))
    as Hrun.
  { induction l as [|call l IH]; intros q Hq; [by split_and!; [left|..]|].
    assert (0 ≤ Queue.start q < Capacity) as Hstart
      by (destruct Hq as (_ & _ & ? & _ & Hidx); destruct Hidx; lia).
    unfold outcome, state_after in *. destruct call as [element| |]; cbn [calls];
      unfold mbind, M_bind.
    - pose proof (push_well_formed Capacity HC' q element Hq) as Hq'.
      assert (∃ b, Queue.push Capacity element q
                   = (state_after (Queue.push Capacity element) q, Ok b)) as [b Hpush].
      { unfold state_after.
        destruct (Z.lt_ge_cases (Queue.size q) Capacity) as [Hroom|Hfull].
        - rewrite push_run_room by done. by eexists.
        - rewrite push_run_full by done. by eexists. }
      rewrite Hpush. destruct (IH _ Hq') as (Hends & Hall & Hpushes & Hwf).
      split; [done|]. split; [|split; [|done]].
      + intros Hwritten. apply Hall.
        destruct (push_filled Capacity HC' q element Hq) as [Hfilled|(He & _)].
        * by left.
        * done.
        * unfold state_after in He |- *.
          destruct (Z.lt_ge_cases (Queue.size q) Capacity) as [Hroom|Hfull].
          -- rewrite push_run_room in * by done. cbn in *. intros i Hi.
             apply written_insert; [|lia|by apply Hwritten].
             destruct Hq as (_ & _ & _ & ? & _). lia.
          -- rewrite push_run_full in * by done. done.
      + intros Hcalls. apply Hpushes. intros call Hcall. apply Hcalls. by right.
    - destruct (start_cell Capacity q Hq) as [[x Hx]|Hx]; [lia| |].
      + pose proof (pop_run_written Capacity HC' q x Hq ltac:(lia) Hx) as Hpop.
        pose proof (pop_well_formed Capacity HC' q x Hq) as Hq'.
        unfold outcome, state_after in Hq'. rewrite Hpop in *. cbn [fst snd] in *.
        destruct (IH _ (Hq' eq_refl)) as (Hends & Hall & Hpushes & Hwf).
        split; [done|]. split; [by intros Hwritten; apply Hall|]. split; [|done].
        intros Hcalls. destruct (Hcalls CallPop) as [element [=]]. by left.
      + rewrite (pop_run_unwritten Capacity q Hq) by (done || lia). cbn [fst snd].
        split; [right; by exists (Queue.start q)|]. split; [|split; [|done]].
        * intros Hwritten. destruct (Hwritten (Queue.start q) Hstart) as [x Hx'].
          rewrite Hx in Hx'. done.
        * intros Hcalls. destruct (Hcalls CallPop) as [element [=]]. by left.
    - rewrite (front_run Capacity q Hq) by lia. cbn [fst snd].
      destruct (start_cell Capacity q Hq) as [[x Hx]|Hx]; [lia| |]; rewrite Hx.
      + destruct (IH _ Hq) as (Hends & Hall & Hpushes & Hwf).
        split; [done|]. split; [done|]. split; [|done].
        intros Hcalls. destruct (Hcalls CallFront) as [element [=]]. by left.
      + split; [right; by exists (Queue.start q)|]. split; [|split; [|done]].
        * intros Hwritten. destruct (Hwritten (Queue.start q) Hstart) as [x Hx'].
          rewrite Hx in Hx'. done.
        * intros Hcalls. destruct (Hcalls CallFront) as [element [=]]. by left. }
  destruct (Hrun (Queue.init Capacity default)) as (Hends & Hall & Hpushes & Hwf).
  { by apply init_well_formed. }
  split; [done|]. split; [|split; [done|]].
  - intros [d ->]. apply Hall. intros i Hi. exists d. cbn.
    apply lookup_replicate_2. lia.
  - split; [done|].
    destruct Hwf as (_ & _ & Hstart & Hend & Hidx). destruct Hidx; [lia|]. lia.
Qed.

(** X5 at a concrete input: push, pop, front, pop on a fresh queue of
    two cells that hold nothing yet; the front reads cell 1, in which
    nothing was stored. *)
Lemma X5_queue_calls_in_range_witness :
  0 < 2 < 2 ^ 64
  ∧ outcome (calls 2 [CallPush 7%nat; CallPop; CallFront; CallPop]) (Queue.init 2 None)
    = Fault (IndeterminateValue 1)
  ∧ 0 ≤ Queue.start
         (state_after (calls 2 [CallPush 7%nat; CallPop; CallFront; CallPop])
            (Queue.init 2 None)) < 2.
Proof.
  assert (0 < 2 < 2 ^ 64) as HC by lia.
  split; [done|].
  destruct (X5_queue_calls_in_range 2 None
              [CallPush 7%nat; CallPop; CallFront; CallPop] HC)
    as (Hends & _ & _ & _ & Hstart & _).
  split; [|exact Hstart].
  destruct Hends as [Hok|(i & Hi & Hfault)]; [by vm_compute in Hok|].
  rewrite Hfault. vm_compute in Hfault. by injection Hfault as ->.
Defined.

(** X6 — [Queue::pop] does not check for an empty queue. On an empty
    queue used in order (with at least one cell) [pop] still reads cell
    [start]. Where that cell holds a value (one popped before, or the
    default-constructed one), [pop] returns it, moves [start] on, and
    [size] wraps around to [2^64 - 1]; after that the queue claims not to
    be empty and turns every push away, storing nothing. Where nothing
    was stored in the cell yet, [pop] reads an indeterminate value. *)
Theorem X6_queue_pop_empty {T : Type} (Capacity : Z) (q : Queue.t T) (element : T) :
  0 < Capacity < 2 ^ 64 →
  Queue.orderly Capacity q → Queue.size q = 0 →
  Queue.contents Capacity q = []
  ∧ match Queue.data q !! Z.to_nat (Queue.start q) with
    | Some (Some x) =>
        Queue.pop Capacity q
        = ({| Queue.data := Queue.data q;
              Queue.start := (Queue.start q + 1) `mod` Capacity;
              Queue.end_ := Queue.end_ q;
              Queue.size := 2 ^ 64 - 1 |}, Ok x)
        ∧ outcome Queue.getSize (state_after (Queue.pop Capacity) q) = Ok (2 ^ 64 - 1)
        ∧ outcome Queue.isEmpty (state_after (Queue.pop Capacity) q) = Ok false
        ∧ Queue.push Capacity element (state_after (Queue.pop Capacity) q)
          = (state_after (Queue.pop Capacity) q, Ok false)
    | _ => Queue.pop Capacity q = (q, Fault (IndeterminateValue (Queue.start q)))
    end.
Proof.
  intros HC Hq Hempty. assert (0 ≤ Capacity < 2 ^ 64) as HC' by lia.
  destruct (orderly_invariant Capacity HC' q Hq) as (Hwf & _ & _).
  split; [unfold Queue.contents; by rewrite Hempty|].
  destruct (start_cell Capacity q Hwf) as [[x Hx]|Hx]; [lia| |]; rewrite Hx.
  - pose proof (pop_run_written Capacity HC' q x Hwf ltac:(lia) Hx) as Hpop.
    unfold state_after, outcome. rewrite Hpop, Hempty. cbn [fst snd].
    split; [done|]. split; [done|]. split; [done|].
    apply push_run_full. cbn. unfold size_t_expr.
    replace ((0 - 1) `mod` 2 ^ 64) with (2 ^ 64 - 1) by reflexivity. lia.
  - apply pop_run_unwritten; [done|lia|done].
Qed.

(** X6 at a concrete input: 7 and 8 are pushed on a fresh queue of two
    cells and popped again; the next pop, on the empty queue, returns 7
    once more and leaves [size] at [2^64 - 1]. *)
Lemma X6_queue_pop_empty_witness :
  0 < 2 < 2 ^ 64
  ∧ Queue.orderly 2 (state_after (push_all 2 [7%nat; 8%nat];; pop_n 2 2) (Queue.init 2 None))
  ∧ Queue.size (state_after (push_all 2 [7%nat; 8%nat];; pop_n 2 2) (Queue.init 2 None)) = 0
  ∧ Queue.pop 2 (state_after (push_all 2 [7%nat; 8%nat];; pop_n 2 2) (Queue.init 2 None))
    = ({| Queue.data := [Some 7%nat; Some 8%nat]; Queue.start := 1; Queue.end_ := 0;
          Queue.size := 2 ^ 64 - 1 |}, Ok 7%nat).
Proof.
  assert (0 < 2 < 2 ^ 64) as HC by lia.
  assert (Queue.orderly 2
            (state_after (push_all 2 [7%nat; 8%nat];; pop_n 2 2) (Queue.init 2 None)))
    as Hq.
  { change (state_after (push_all 2 [7%nat; 8%nat];; pop_n 2 2) (Queue.init 2 None))
      with (state_after (Queue.pop 2)
              (state_after (Queue.pop 2)
                 (state_after (Queue.push 2 8%nat)
                    (state_after (Queue.push 2 7%nat) (Queue.init 2 None))))).
    apply Queue.orderly_pop; [|by vm_compute].
    apply Queue.orderly_pop; [|by vm_compute].
    do 2 apply Queue.orderly_push. apply Queue.orderly_init. }
  split; [done|]. split; [done|]. split; [reflexivity|].
  destruct (X6_queue_pop_empty 2 _ 0%nat HC Hq eq_refl) as (_ & Hpop).
  exact (proj1 Hpop).
Defined.

(** ** Stores filled through the bank *)

Section bank_fill.
Context `{IAccountStorage St}.

(** The bank's adds are the store's adds of the zero-balance records. *)
Lemma bank_fill_run (numbers : list string) (s : St) :
  state_after (bank_fill numbers) s
  = state_after (addAccounts (BankAccount_of_string <$> numbers)) s
  ∧ outcome (bank_fill numbers) s
    = outcome (addAccounts (BankAccount_of_string <$> numbers)) s.
Proof.
  revert s. induction numbers as [|k numbers IH]; intros s; [done|].
  unfold state_after, outcome in *. cbn [bank_fill addAccounts fmap list_fmap].
  unfold Bank.addAccount, mbind, M_bind.
  destruct (addAccount (BankAccount_of_string k) s) as [s' [[]|e]]; cbn; [|done].
  apply IH.
Qed.

(** The driver's loop is the bank filled with the driver's numbers. *)
Lemma initialize_bank_fill (count : nat) (i : Z) (s : St) :
  initialize count i s = bank_fill (driver_numbers count i) s.
Proof.
  revert i s. induction count as [|count IH]; intros i s; [done|].
  unfold driver_numbers. cbn [initialize seq fmap list_fmap bank_fill].
  rewrite Z.add_0_r. unfold mbind, M_bind.
  destruct (Bank.addAccount (padded_number i) s) as [s' [b|e]]; [|done].
  rewrite IH. unfold driver_numbers.
  assert ((λ j : nat, padded_number (i + 1 + Z.of_nat j)) <$> seq 0 count
          = (λ j : nat, padded_number (i + Z.of_nat j)) <$> seq 1 count) as ->; [|done].
  rewrite <-fmap_S_seq, <-list_fmap_compose. apply list_fmap_ext.
  intros _ j _. unfold compose. f_equal. lia.
Qed.
End bank_fill.

Lemma with_number_bank k (numbers : list string) a :
  a ∈ with_number k (BankAccount_of_string <$> numbers) → a = BankAccount_of_string k.
Proof.
  intros [Hk (k' & -> & _)%list_elem_of_fmap]%with_number_elem_of.
  cbn in Hk. by rewrite Hk.
Qed.

Lemma with_number_bank_nil k (numbers : list string) :
  with_number k (BankAccount_of_string <$> numbers) = [] ↔ k ∉ numbers.
Proof.
  rewrite with_number_nil. split.
  - intros Hnone Hk. apply (Hnone (BankAccount_of_string k)); [|done].
    apply list_elem_of_fmap. eauto.
  - intros Hk a (k' & -> & Hk')%list_elem_of_fmap. cbn. by intros ->.
Qed.

(** The first and the last of the zero-balance records with a number. *)
Lemma with_number_bank_ends k (numbers : list string) :
  head (with_number k (BankAccount_of_string <$> numbers))
  = (if decide (k ∈ numbers) then Some (BankAccount_of_string k) else None)
  ∧ last (with_number k (BankAccount_of_string <$> numbers))
    = (if decide (k ∈ numbers) then Some (BankAccount_of_string k) else None).
Proof.
  destruct (decide (k ∈ numbers)) as [Hk|Hk].
  - destruct (with_number k (BankAccount_of_string <$> numbers)) as [|a l] eqn:Hw.
    { by apply with_number_bank_nil in Hw. }
    split.
    + cbn. f_equal. apply (with_number_bank k numbers). rewrite Hw. set_solver.
    + destruct (last (a :: l)) as [b|] eqn:Hlast; [|by apply last_None in Hlast].
      f_equal. apply (with_number_bank k numbers). rewrite Hw.
      by apply last_Some_elem_of.
  - apply with_number_bank_nil in Hk. by rewrite Hk.
Qed.

(** The three stores, filled through the bank. *)
Lemma map_bank_fill_lookup (numbers : list string) (k : string) :
  outcome (bank_fill numbers) MapAccountStorage.empty = Ok tt
  ∧ lookup_account k (state_after (bank_fill numbers) MapAccountStorage.empty)
    = Ok (if decide (k ∈ numbers) then Some (BankAccount_of_string k) else None).
Proof.
  destruct (with_number_bank_ends k numbers) as [_ Hlast].
  destruct (bank_fill_run numbers MapAccountStorage.empty) as [-> ->].
  split; [unfold outcome; by rewrite map_addAccounts_run|].
  by rewrite map_adds_lookup_account, Hlast.
Qed.

Lemma bs_permuted_bank_lookup `{StdSort} (numbers : list string) (k : string)
    (accounts : list BankAccount) :
  accounts ≡ₚ BankAccount_of_string <$> numbers →
  Z.of_nat (length numbers) ≤ INT_MAX →
  lookup_account k accounts
  = Ok (if decide (k ∈ numbers) then Some (BankAccount_of_string k) else None).
Proof.
  intros Hperm Hsize.
  assert (Z.of_nat (length accounts) ≤ INT_MAX) as Hlen
    by (by rewrite Hperm, length_fmap).
  assert (∀ a, a ∈ accounts → getAccountNumber a = k → a = BankAccount_of_string k)
    as Hbank.
  { intros a Ha Hk. rewrite Hperm in Ha.
    apply list_elem_of_fmap in Ha as (k' & -> & _). cbn in Hk. by rewrite Hk. }
  destruct (decide (k ∈ numbers)) as [Hk|Hk].
  - destruct (bs_lookup_account_present k accounts Hlen) as (b & -> & Hb & Hbk).
    { exists (BankAccount_of_string k). split; [|done].
      rewrite Hperm. apply list_elem_of_fmap. eauto. }
    by rewrite (Hbank b Hb Hbk).
  - apply bs_lookup_account_absent; [done|].
    intros a Ha Hak. apply Hk. rewrite Hperm in Ha.
    apply list_elem_of_fmap in Ha as (k' & -> & Hk'). cbn in Hak. by rewrite <-Hak.
Qed.

Lemma bs_bank_fill_lookup `{StdSort} (numbers : list string) (k : string) :
  Z.of_nat (length numbers) ≤ INT_MAX →
  outcome (bank_fill numbers) BinarySearchStorage.empty = Ok tt
  ∧ lookup_account k (state_after (bank_fill numbers) BinarySearchStorage.empty)
    = Ok (if decide (k ∈ numbers) then Some (BankAccount_of_string k) else None).
Proof.
  intros Hsize.
  destruct (bank_fill_run numbers BinarySearchStorage.empty) as [-> ->].
  unfold outcome, state_after. rewrite bs_adds_state. cbn [fst snd].
  split; [done|]. by apply bs_permuted_bank_lookup.
Qed.

Lemma dv_bank_fill_lookup (numbers : list string) (k : string) :
  Forall digit_leading numbers → digit_leading k →
  outcome (bank_fill numbers) DistributedVectorAccountStorage.empty = Ok tt
  ∧ lookup_account k
      (state_after (bank_fill numbers) DistributedVectorAccountStorage.empty)
    = Ok (if decide (k ∈ numbers) then Some (BankAccount_of_string k) else None).
Proof.
  intros Hnumbers (ref & Href & _)%getRef_digit.
  destruct (with_number_bank_ends k numbers) as [Hhead _].
  destruct (bank_fill_run numbers DistributedVectorAccountStorage.empty) as [-> ->].
  rewrite <-Hhead. apply (dv_adds_lookup_account _ _ ref); [|done].
  by apply Forall_fmap.
Qed.

(** X7 — stores filled through the bank answer alike. Numbers, with
    repeats allowed, are handed to [Bank::addAccount] one after the
    other, starting from an empty store. Then [getAccount(k)] returns a
    pointer to the record ([k], balance 0) if [k] is one of the numbers
    and the null pointer if not: on the map store always, on the sorted
    store when it holds at most [INT_MAX] records, and on the bucketed
    store when the numbers and [k] lead with a digit. Every call of
    [addAccount] returns [true] there. *)
Theorem X7_bank_filled_stores `{StdSort} (numbers : list string) (k : string) :
  (outcome (bank_fill numbers) MapAccountStorage.empty = Ok tt
   ∧ lookup_account k (state_after (bank_fill numbers) MapAccountStorage.empty)
     = Ok (if decide (k ∈ numbers) then Some (BankAccount_of_string k) else None))
  ∧ (Z.of_nat (length numbers) ≤ INT_MAX →
     outcome (bank_fill numbers) BinarySearchStorage.empty = Ok tt
     ∧ lookup_account k (state_after (bank_fill numbers) BinarySearchStorage.empty)
       = Ok (if decide (k ∈ numbers) then Some (BankAccount_of_string k) else None))
  ∧ (Forall digit_leading numbers → digit_leading k →
     outcome (bank_fill numbers) DistributedVectorAccountStorage.empty = Ok tt
     ∧ lookup_account k
         (state_after (bank_fill numbers) DistributedVectorAccountStorage.empty)
       = Ok (if decide (k ∈ numbers) then Some (BankAccount_of_string k) else None)).
Proof.
  split; [apply map_bank_fill_lookup|].
  split; [apply bs_bank_fill_lookup|apply dv_bank_fill_lookup].
Qed.

(** X7 at a concrete input: "25", "1" and "25" again through the bank. *)
Lemma X7_bank_filled_stores_witness :
  Z.of_nat (length ["25"; "1"; "25"]%string) ≤ INT_MAX
  ∧ Forall digit_leading ["25"; "1"; "25"]%string
  ∧ digit_leading "25"
  ∧ @lookup_account _ (@BinarySearchStorage.storage merge_StdSort) "25"
      (state_after (@bank_fill _ (@BinarySearchStorage.storage merge_StdSort)
                      ["25"; "1"; "25"]%string) BinarySearchStorage.empty)
    = Ok (Some two_zero)
  ∧ lookup_account "25"
      (state_after (bank_fill ["25"; "1"; "25"]%string)
         DistributedVectorAccountStorage.empty)
    = Ok (Some two_zero).
Proof.
  assert (Z.of_nat (length ["25"; "1"; "25"]%string) ≤ INT_MAX) as Hsize
    by (by vm_compute).
  assert (Forall digit_leading ["25"; "1"; "25"]%string) as Hnumbers
    by (repeat constructor; by eexists).
  assert (digit_leading "25") as Hk by (by eexists).
  split; [done|]. split; [done|]. split; [done|].
  destruct (@X7_bank_filled_stores merge_StdSort ["25"; "1"; "25"]%string "25")
    as (_ & Hbs & Hdv).
  split.
  - destruct (Hbs Hsize) as [_ ->]. reflexivity.
  - destruct (Hdv Hnumbers Hk) as [_ ->]. reflexivity.
Defined.

(** ** One store, several calls *)

Lemma dv_lookup_account_fault (accounts : vec (list BankAccount) 10) k e :
  DistributedVectorAccountStorage.getRef (string_front k) = Fault e →
  lookup_account k accounts = Fault e.
Proof. intros Href. unfold lookup_account. by rewrite (dv_findAccount_fault _ _ _ Href). Qed.

(** When at most one record carries the number, the sorted store returns
    it, wherever it stands in the vector. *)
Lemma bs_lookup_account_unique `{StdSort} (accounts : list BankAccount) k :
  Z.of_nat (length accounts) ≤ INT_MAX →
  (length (with_number k accounts) ≤ 1)%nat →
  lookup_account k accounts = Ok (head (with_number k accounts)).
Proof.
  intros Hsize Hone.
  destruct (with_number k accounts) as [|a [|b l]] eqn:Hw; [| |cbn in Hone; lia].
  - apply bs_lookup_account_absent; [done|]. by apply with_number_nil.
  - destruct (bs_lookup_account_present k accounts Hsize) as (b & -> & Hb & Hbk).
    { exists a. apply and_comm, with_number_elem_of. rewrite Hw. constructor. }
    assert (b ∈ with_number k accounts) as Hin by (by apply with_number_elem_of).
    rewrite Hw in Hin. by apply list_elem_of_singleton in Hin as ->.
Qed.

Lemma with_number_Permutation k (l l' : list BankAccount) :
  l ≡ₚ l' → with_number k l ≡ₚ with_number k l'.
Proof. intros Hl. unfold with_number. by rewrite Hl. Qed.

Lemma NoDup_with_number_length k (l : list BankAccount) :
  NoDup (getAccountNumber <$> l) → (length (with_number k l) ≤ 1)%nat.
Proof. intros Hl. by destruct (with_number_NoDup k l Hl) as [->|[a ->]]; cbn; lia. Qed.

(** With pairwise distinct numbers there is one sorted arrangement only. *)
Lemma sorted_by_number_unique (l1 l2 : list BankAccount) :
  NoDup (getAccountNumber <$> l1) → l1 ≡ₚ l2 →
  sorted_by_number l1 → sorted_by_number l2 → l1 = l2.
Proof.
  intros Hdistinct Hperm Hs1%sorted_by_number_ascending Hs2%sorted_by_number_ascending.
  assert (getAccountNumber <$> l1 = getAccountNumber <$> l2) as Hkeys.
  { apply (StronglySorted_unique String.le); [done..|]. by rewrite Hperm. }
  apply list_eq. intros i.
  destruct (l1 !! i) as [a|] eqn:Ha, (l2 !! i) as [b|] eqn:Hb;
    apply (f_equal (λ l, l !! i)) in Hkeys; rewrite !list_lookup_fmap, Ha, Hb in Hkeys;
    try done.
  cbn in Hkeys. injection Hkeys as Hab. f_equal.
  assert (b ∈ with_number (getAccountNumber a) l1) as Hin.
  { apply with_number_elem_of. split; [done|].
    rewrite Hperm. by eapply list_elem_of_lookup_2. }
  rewrite (with_number_unique l1 a) in Hin by (by eapply list_elem_of_lookup_2 || done).
  by apply list_elem_of_singleton in Hin.
Qed.

(** X8 — an add leaves the other numbers alone. After [addAccount(v)], a
    find for a number other than the one of [v] returns what it returned
    before: on the map store always, on the bucketed store when the
    number of [v] leads with a digit, and on the sorted store when it
    holds at most [INT_MAX] records after the add and at most one record
    carries the number asked for. *)
Theorem X8_add_other_number `{StdSort} (v : BankAccount) (k : string) :
  getAccountNumber v ≠ k →
  (∀ accounts : gmap string BankAccount,
     lookup_account k (state_after (addAccount v) accounts) = lookup_account k accounts)
  ∧ (∀ accounts : vec (list BankAccount) 10,
       digit_leading (getAccountNumber v) →
       lookup_account k (state_after (addAccount v) accounts) = lookup_account k accounts)
  ∧ (∀ accounts : list BankAccount,
       Z.of_nat (length accounts) + 1 ≤ INT_MAX →
       (length (with_number k accounts) ≤ 1)%nat →
       lookup_account k (state_after (addAccount v) accounts) = lookup_account k accounts).
Proof.
  intros Hother.
  assert (∀ l, with_number k (l ++ [v]) = with_number k l) as Hw.
  { intros l. rewrite with_number_app. unfold with_number at 2.
    rewrite filter_cons_False by done. by rewrite filter_nil, app_nil_r. }
  split; [|split].
  - intros accounts. unfold state_after. rewrite map_addAccount_run, !map_lookup_account.
    cbn. by rewrite lookup_insert_ne.
  - intros accounts (refv & Hrefv & _)%getRef_digit.
    unfold state_after. rewrite (dv_addAccount_run _ _ _ Hrefv). cbn [fst].
    destruct (DistributedVectorAccountStorage.getRef (string_front k)) as [ref|e] eqn:Href.
    + rewrite !(dv_lookup_account _ _ _ Href).
      destruct (decide (ref = refv)) as [->|Hne].
      * by rewrite vlookup_insert, Hw.
      * by rewrite vlookup_insert_ne.
    + by rewrite !(dv_lookup_account_fault _ _ _ Href).
  - intros accounts Hsize Hone.
    unfold state_after. rewrite bs_addAccount_run. cbn [fst].
    rewrite !bs_lookup_account_unique; rewrite ?Hw, ?length_app; cbn; try done; lia.
Qed.

(** X8 at a concrete input: adding ("25", 0) does not change what the
    find for "1" returns on a bucketed store that holds ("1", 1). *)
Lemma X8_add_other_number_witness :
  getAccountNumber two_zero ≠ "1"%string
  ∧ digit_leading (getAccountNumber two_zero)
  ∧ lookup_account "1"
      (state_after (addAccount two_zero)
         (state_after (addAccount one_first) DistributedVectorAccountStorage.empty))
    = lookup_account "1"
        (state_after (addAccount one_first) DistributedVectorAccountStorage.empty).
Proof.
  assert (getAccountNumber two_zero ≠ "1"%string) as Hother by discriminate.
  assert (digit_leading (getAccountNumber two_zero)) as Hdigit by (by eexists).
  split; [done|]. split; [done|].
  destruct (@X8_add_other_number merge_StdSort two_zero "1" Hother) as (_ & Hdv & _).
  by apply Hdv.
Defined.

(** X9 — the sorted store with pairwise distinct numbers. Holding at most
    [INT_MAX] records, it returns the one record with the number asked
    for (or the null pointer if there is none), whatever order the
    records were added in and whatever finds came before. The first find
    puts the vector in ascending order; every later find leaves it as it
    is. *)
Theorem X9_sorted_store_distinct `{StdSort} (accounts : list BankAccount) (k : string) :
  NoDup (getAccountNumber <$> accounts) →
  Z.of_nat (length accounts) ≤ INT_MAX →
  lookup_account k accounts = Ok (head (with_number k accounts))
  ∧ (∀ accounts', accounts' ≡ₚ accounts →
       lookup_account k accounts' = lookup_account k accounts)
  ∧ (∀ k', lookup_account k (state_after (findAccount k') accounts)
           = lookup_account k accounts)
  ∧ (∀ k', state_after (findAccount k) (state_after (findAccount k') accounts)
           = state_after (findAccount k') accounts)
  ∧ (sorted_by_number accounts → state_after (findAccount k) accounts = accounts).
Proof.
  intros Hdistinct Hsize.
  assert (∀ accounts', accounts' ≡ₚ accounts →
            lookup_account k accounts' = lookup_account k accounts) as Hperm.
  { intros accounts' Hp.
    assert (length (with_number k accounts') ≤ 1)%nat as Hone'
      by (apply NoDup_with_number_length; by rewrite Hp).
    pose proof (NoDup_with_number_length k accounts Hdistinct) as Hone.
    rewrite !bs_lookup_account_unique by (done || by rewrite Hp).
    pose proof (with_number_Permutation k _ _ Hp) as Hw. f_equal.
    destruct (with_number k accounts) as [|a [|? ?]]; [| |cbn in Hone; lia].
    - by apply Permutation_nil_r in Hw as ->.
    - by apply Permutation_singleton_r in Hw as ->. }
  assert (∀ l, l ≡ₚ accounts → sorted_by_number l → std_sort l = l) as Hfixed.
  { intros l Hp Hs. apply sorted_by_number_unique; try done.
    - by rewrite std_sort_permutation, Hp.
    - apply std_sort_permutation.
    - apply std_sort_sorted. }
  split_and!.
  - by apply bs_lookup_account_unique, NoDup_with_number_length.
  - done.
  - intros k'. apply Hperm. unfold state_after. rewrite bs_findAccount_run.
    apply std_sort_permutation.
  - intros k'. unfold state_after. rewrite !bs_findAccount_run. cbn [fst].
    apply Hfixed; [apply std_sort_permutation|apply std_sort_sorted].
  - intros Hs. unfold state_after. rewrite bs_findAccount_run. cbn [fst].
    by apply Hfixed.
Qed.

(** X9 at a concrete input: ("25", 0) then ("1", 1) in a sorted store;
    the find for "25" sorts the vector and returns ("25", 0). *)
Lemma X9_sorted_store_distinct_witness :
  NoDup (getAccountNumber <$> [two_zero; one_first])
  ∧ Z.of_nat (length [two_zero; one_first]) ≤ INT_MAX
  ∧ @lookup_account _ (@BinarySearchStorage.storage merge_StdSort) "25"
      [two_zero; one_first]
    = Ok (Some two_zero).
Proof.
  assert (NoDup (getAccountNumber <$> [two_zero; one_first])) as Hdistinct.
  { cbn. apply NoDup_cons. split; [|apply NoDup_singleton].
    intros Hin%list_elem_of_singleton. discriminate. }
  assert (Z.of_nat (length [two_zero; one_first]) ≤ INT_MAX) as Hsize by (by vm_compute).
  split; [done|]. split; [done|].
  destruct (@X9_sorted_store_distinct merge_StdSort [two_zero; one_first] "25"
              Hdistinct Hsize) as (-> & _).
  reflexivity.
Defined.

(** ** The leading character in the bucketed store *)

(** Where [getRef] is out of range, the index is the character minus 48:
    negative or above 9. *)
Lemma getRef_fault_index (c : ascii) e :
  DistributedVectorAccountStorage.getRef c = Fault e →
  e = OutOfRange (int_of_char c - 48)
  ∧ (int_of_char c - 48 < 0 ∨ 9 < int_of_char c - 48)
  ∧ -176 ≤ int_of_char c - 48 ≤ 79.
Proof.
  destruct c as [[] [] [] [] [] [] [] []]; intros Hc; vm_compute in Hc;
    try discriminate; injection Hc as <-; (split; [reflexivity|]);
    vm_compute; intuition discriminate.
Qed.

(** X10 — the bucketed store looks at the first character only, and does
    not check it. For a number that leads with a digit, [addAccount]
    appends the record to the bucket of that digit and [findAccount]
    returns without touching the store. For any other number, the empty
    string included (its first character is the terminating null, index
    -48), [addAccount], [findAccount] and [Bank::addAccount] all subscript
    the array of ten vectors with the character minus 48, which is below
    0 or above 9. *)
Theorem X10_bucketed_leading_character (k : string) (b : float)
    (accounts : vec (list BankAccount) 10) :
  (digit_leading k →
     ∃ ref, leading_digit k = Some (fin_to_nat ref)
       ∧ addAccount (mkBankAccount k b) accounts
         = (vinsert ref (accounts !!! ref ++ [mkBankAccount k b]) accounts, Ok tt)
       ∧ state_after (findAccount k) accounts = accounts
       ∧ ∃ p, outcome (findAccount k) accounts = Ok p)
  ∧ (¬ digit_leading k →
     (int_of_char (string_front k) - 48 < 0 ∨ 9 < int_of_char (string_front k) - 48)
     ∧ -176 ≤ int_of_char (string_front k) - 48 ≤ 79
     ∧ addAccount (mkBankAccount k b) accounts
       = (accounts, Fault (OutOfRange (int_of_char (string_front k) - 48)))
     ∧ findAccount k accounts
       = (accounts, Fault (OutOfRange (int_of_char (string_front k) - 48)))
     ∧ outcome (Bank.addAccount k) accounts
       = Fault (OutOfRange (int_of_char (string_front k) - 48)))
  ∧ (k = ""%string →
     ¬ digit_leading k ∧ int_of_char (string_front k) - 48 = -48).
Proof.
  split; [|split].
  - intros (ref & Href & Hd)%getRef_digit. exists ref. split; [done|].
    split; [by apply dv_addAccount_run|].
    unfold state_after, outcome. rewrite (dv_findAccount_run _ _ _ Href). cbn. eauto.
  - intros Hk%getRef_no_digit.
    destruct (getRef_fault_index _ _ Hk) as (_ & Hout & Hrange).
    split; [done|]. split; [done|].
    split; [by apply dv_addAccount_fault|]. split; [by apply dv_findAccount_fault|].
    unfold outcome, Bank.addAccount, mbind, M_bind.
    by rewrite (dv_addAccount_fault accounts (BankAccount_of_string k) _ Hk).
  - intros ->. split; [|done]. intros [d Hd]. by vm_compute in Hd.
Qed.

(** X10 at a concrete input: the record with the empty number and
    balance 0 handed to an empty bucketed store. *)
Lemma X10_bucketed_leading_character_witness :
  ¬ digit_leading ""
  ∧ addAccount (mkBankAccount "" 0) DistributedVectorAccountStorage.empty
    = (DistributedVectorAccountStorage.empty, Fault (OutOfRange (-48))).
Proof.
  assert (¬ digit_leading "") as Hk by (intros [d Hd]; by vm_compute in Hd).
  split; [done|].
  destruct (X10_bucketed_leading_character "" 0 DistributedVectorAccountStorage.empty)
    as (_ & Hbad & _).
  destruct (Hbad Hk) as (_ & _ & Hadd & _). exact Hadd.
Defined.

(** ** How many records a store holds *)

Lemma map_adds_dom (adds : list BankAccount) (accounts : gmap string BankAccount) :
  dom (foldl (λ m a, <[getAccountNumber a := a]> m) accounts adds)
  = list_to_set (getAccountNumber <$> adds) ∪ dom accounts.
Proof.
  revert accounts. induction adds as [|a adds IH]; intros accounts; cbn [foldl].
  - cbn. by rewrite (left_id_L ∅ (∪)).
  - rewrite IH, dom_insert_L. cbn [fmap list_fmap list_to_set].
    by rewrite (assoc_L (∪)), (comm_L (∪) (list_to_set _) {[_]}).
Qed.

Lemma remove_dups_shorter (l : list string) :
  (length (remove_dups l) ≤ length l)%nat.
Proof.
  apply submseteq_length, NoDup_submseteq; [apply NoDup_remove_dups|].
  intros x. by rewrite elem_of_remove_dups.
Qed.

Lemma concat_insert_snoc (l : list (list BankAccount)) (i : nat) x a :
  l !! i = Some x → concat (<[i := x ++ [a]]> l) ≡ₚ a :: concat l.
Proof.
  revert i. induction l as [|y l IH]; intros [|i] Hi; try done; cbn in *.
  - injection Hi as ->. rewrite <-app_assoc. cbn.
    by rewrite <-Permutation_middle.
  - rewrite (IH i Hi). by rewrite Permutation_middle.
Qed.

(** X11 — what is kept. After any list of adds to an empty store, the
    map store holds one record for each distinct number (never more than
    were added), the sorted store holds exactly the added records, also
    after a find has rearranged them, and the ten buckets of the bucketed
    store together hold exactly the added records (for numbers leading
    with a digit): the vector stores drop nothing and merge nothing. *)
Theorem X11_stores_keep_records `{StdSort} (adds : list BankAccount) (k : string) :
  (size (state_after (addAccounts adds) MapAccountStorage.empty)
   = length (remove_dups (getAccountNumber <$> adds))
   ∧ (size (state_after (addAccounts adds) MapAccountStorage.empty) ≤ length adds)%nat
   ∧ dom (state_after (addAccounts adds) MapAccountStorage.empty)
     = list_to_set (getAccountNumber <$> adds))
  ∧ (state_after (addAccounts adds) BinarySearchStorage.empty = adds
     ∧ state_after (addAccounts adds;; findAccount k) BinarySearchStorage.empty ≡ₚ adds)
  ∧ (Forall (λ a, digit_leading (getAccountNumber a)) adds →
     concat (vec_to_list (state_after (addAccounts adds) DistributedVectorAccountStorage.empty))
     ≡ₚ adds).
Proof.
  split; [|split].
  - unfold state_after. rewrite map_addAccounts_run. cbn [fst].
    assert (dom (foldl (λ m a, <[getAccountNumber a := a]> m) MapAccountStorage.empty adds)
            = list_to_set (remove_dups (getAccountNumber <$> adds))) as Hdom.
    { rewrite map_adds_dom. unfold MapAccountStorage.empty. rewrite dom_empty_L.
      apply set_eq. intros x. rewrite elem_of_union, !elem_of_list_to_set.
      rewrite elem_of_remove_dups, elem_of_empty. tauto. }
    assert (size (foldl (λ m a, <[getAccountNumber a := a]> m) MapAccountStorage.empty adds)
            = length (remove_dups (getAccountNumber <$> adds))) as Hsize.
    { rewrite <-size_dom, Hdom. apply size_list_to_set, NoDup_remove_dups. }
    split; [done|]. split.
    + rewrite Hsize. etrans; [apply remove_dups_shorter|]. by rewrite length_fmap.
    + rewrite map_adds_dom. unfold MapAccountStorage.empty.
      by rewrite dom_empty_L, (right_id_L ∅ (∪)).
  - unfold state_after, mbind, M_bind. rewrite bs_adds_state. cbn [fst].
    split; [done|]. rewrite bs_findAccount_run. apply std_sort_permutation.
  - intros Hadds. unfold state_after.
    assert (∀ accounts : vec (list BankAccount) 10,
              concat (vec_to_list (addAccounts adds accounts).1)
              ≡ₚ concat (vec_to_list accounts) ++ adds) as Hgen.
    { induction Hadds as [|a adds Ha _ IH]; intros accounts.
      - cbn. by rewrite app_nil_r.
      - destruct (getRef_digit _ Ha) as (ref & Href & _).
        cbn -[addAccount]. unfold mbind, M_bind.
        rewrite (dv_addAccount_run _ _ _ Href), IH, vec_to_list_insert.
        rewrite concat_insert_snoc by (by apply vlookup_lookup).
        by rewrite <-Permutation_middle. }
    rewrite Hgen. unfold DistributedVectorAccountStorage.empty. by cbn.
Qed.

(** X11 at a concrete input: ("1", 1), ("25", 0), ("1", 2) make two map
    entries and three bucket entries. *)
Lemma X11_stores_keep_records_witness :
  Forall (λ a, digit_leading (getAccountNumber a)) [one_first; two_zero; one_second]
  ∧ size (state_after (addAccounts [one_first; two_zero; one_second])
            MapAccountStorage.empty) = 2%nat
  ∧ length (concat (vec_to_list
              (state_after (addAccounts [one_first; two_zero; one_second])
                 DistributedVectorAccountStorage.empty))) = 3%nat.
Proof.
  assert (Forall (λ a, digit_leading (getAccountNumber a))
            [one_first; two_zero; one_second]) as Hadds
    by (repeat constructor; by eexists).
  split; [done|].
  destruct (@X11_stores_keep_records merge_StdSort [one_first; two_zero; one_second] "1")
    as ((Hsize & _) & _ & Hdv).
  split; [rewrite Hsize; reflexivity|]. by rewrite (Hdv Hadds).
Defined.

(** ** The driver's numbers *)

Lemma zeros_app_S (n : nat) (s : string) :
  zeros (S n) +:+ s = String "0" (zeros n +:+ s).
Proof. reflexivity. Qed.

Lemma zeros_shift (n : nat) (s : string) :
  zeros n +:+ String "0" s = zeros (S n) +:+ s.
Proof. induction n as [|n IH]; [done|]. by rewrite zeros_app_S, IH. Qed.

Lemma zeros_length (n : nat) (s : string) :
  String.length (zeros n +:+ s) = (n + String.length s)%nat.
Proof. induction n as [|n IH]; [done|]. rewrite zeros_app_S. cbn. by rewrite IH. Qed.

Lemma zeros_digits_only (n : nat) (s : string) :
  digits_only (zeros n +:+ s) = digits_only s.
Proof. induction n as [|n IH]; [done|]. rewrite zeros_app_S. cbn. by rewrite IH. Qed.

(** The padding loop, run for enough rounds. *)
Lemma pad_zeros (fuel : nat) (s : string) :
  (10 - String.length s ≤ fuel)%nat →
  pad fuel s = zeros (10 - String.length s) +:+ s.
Proof.
  revert s. induction fuel as [|fuel IH]; intros s Hfuel; cbn [pad].
  - by replace (10 - String.length s)%nat with 0%nat by lia.
  - destruct (Nat.ltb_spec (String.length s) 10) as [Hlt|Hge].
    + rewrite IH by (cbn [String.length]; lia). cbn [String.length].
      replace (10 - String.length s)%nat with (S (10 - S (String.length s))) by lia.
      apply zeros_shift.
    + by replace (10 - String.length s)%nat with 0%nat by lia.
Qed.

Lemma zeros_app_inj (n m : nat) (s t : string) :
  leads_nonzero s → leads_nonzero t →
  zeros n +:+ s = zeros m +:+ t → s = t.
Proof.
  intros (c & s' & -> & Hc & _) (d & t' & -> & Hd & _). revert m.
  induction n as [|n IH]; intros [|m]; rewrite ?zeros_app_S; intros Heq.
  - done.
  - injection Heq as -> _. done.
  - injection Heq as <- _. done.
  - injection Heq as Heq. by apply (IH m).
Qed.

Lemma zeros_leading (n : nat) (s : string) :
  leads_nonzero s → digit_leading (zeros n +:+ s).
Proof.
  intros (c & s' & -> & _ & Hc). destruct n as [|n]; [done|]. by eexists.
Qed.

Lemma pretty_N_char_digit (x : N) : is_Some (Ascii.is_nat (pretty_N_char x)).
Proof. unfold pretty_N_char. repeat case_match; by eexists. Qed.

Lemma pretty_N_char_nonzero (x : N) : (0 < x)%N → pretty_N_char x ≠ "0"%char.
Proof. unfold pretty_N_char. intros Hx. repeat case_match; (done || lia). Qed.

Lemma pretty_N_go_digits (x : N) (s : string) :
  digits_only s = true → digits_only (pretty_N_go x s) = true.
Proof.
  revert s. induction (N.lt_wf_0 x) as [x _ IH]; intros s Hs.
  assert (x = 0 ∨ 0 < x)%N as [->|Hx] by lia; [by rewrite pretty_N_go_0|].
  rewrite pretty_N_go_step by done. apply IH; [by apply N.div_lt|].
  cbn [digits_only]. rewrite Hs, andb_true_r.
  apply bool_decide_eq_true, pretty_N_char_digit.
Qed.

Lemma pretty_N_go_leading (x : N) (s : string) :
  (0 < x)%N → leads_nonzero (pretty_N_go x s).
Proof.
  revert s. induction (N.lt_wf_0 x) as [x _ IH]; intros s Hx.
  rewrite pretty_N_go_step by done.
  assert (x < 10 ∨ 10 ≤ x)%N as [Hlt|Hge] by lia.
  - rewrite N.div_small, N.mod_small, pretty_N_go_0 by done.
    eexists _, _. split; [done|].
    split; [by apply pretty_N_char_nonzero|apply pretty_N_char_digit].
  - apply IH; [by apply N.div_lt|]. apply N.div_str_pos. lia.
Qed.

Lemma pretty_N_go_length (k : nat) (x : N) (s : string) :
  (x < 10 ^ N.of_nat k)%N →
  (String.length (pretty_N_go x s) ≤ String.length s + k)%nat.
Proof.
  revert x s. induction k as [|k IH]; intros x s Hx.
  - assert (x = 0%N) as -> by (cbn in Hx; lia). rewrite pretty_N_go_0. lia.
  - assert (x = 0 ∨ 0 < x)%N as [->|Hpos] by lia; [rewrite pretty_N_go_0; lia|].
    rewrite pretty_N_go_step by done.
    etrans; [apply IH|cbn [String.length]; lia].
    apply N.Div0.div_lt_upper_bound.
    by rewrite <-N.pow_succ_r', <-Nat2N.inj_succ.
Qed.

Lemma pretty_positive_Z (z : Z) :
  0 < z → pretty z = pretty_N_go (Z.to_N z) "".
Proof.
  intros Hz. destruct z as [|p|p]; [lia| |lia].
  unfold pretty, pretty_Z, pretty, pretty_positive, pretty, pretty_N.
  by case_decide.
Qed.

(** The numbers of the loop while [i + 1] does not overflow. *)
Lemma padded_number_zeros (i : Z) :
  0 ≤ i < INT_MAX →
  leads_nonzero (pretty (i + 1))
  ∧ digits_only (pretty (i + 1)) = true
  ∧ (String.length (pretty (i + 1)%Z) ≤ 10)%nat
  ∧ padded_number i = zeros (10 - String.length (pretty (i + 1)%Z)) +:+ pretty (i + 1).
Proof.
  intros Hi. rewrite (pretty_positive_Z (i + 1)) by lia.
  split; [apply pretty_N_go_leading; lia|].
  split; [by apply pretty_N_go_digits|].
  split.
  - apply (pretty_N_go_length 10 _ ""). unfold INT_MAX in Hi.
    change (10 ^ N.of_nat 10)%N with 10000000000%N. lia.
  - unfold padded_number. rewrite (pretty_positive_Z (i + 1)) by lia.
    apply pad_zeros. lia.
Qed.

Lemma padded_number_inj (i j : Z) :
  0 ≤ i < INT_MAX → 0 ≤ j < INT_MAX →
  padded_number i = padded_number j → i = j.
Proof.
  intros Hi Hj.
  destruct (padded_number_zeros i Hi) as (Hli & _ & _ & ->).
  destruct (padded_number_zeros j Hj) as (Hlj & _ & _ & ->).
  intros Heq%zeros_app_inj; [|done..]. apply (inj pretty) in Heq. lia.
Qed.

Lemma padded_number_length (i : Z) : (10 ≤ String.length (padded_number i%Z))%nat.
Proof.
  unfold padded_number. rewrite pad_zeros by lia. rewrite zeros_length. lia.
Qed.

(** X12 — the padding loop [while (s.size() < 10) s = "0" + s]. It puts
    [10 - size] zeros in front of a shorter string and leaves a string of
    ten or more characters as it is; it ends after at most ten rounds
    with a string of at least ten characters (more rounds allowed change
    nothing); padding twice is padding once; and the characters that were
    there stay at the end: two strings of the same length padded alike
    are the same string. *)
Theorem X12_pad (s t : string) (fuel : nat) :
  pad 10 s = zeros (10 - String.length s) +:+ s
  ∧ String.length (pad 10 s) = (String.length s `max` 10)%nat
  ∧ ((10 ≤ String.length s)%nat → pad 10 s = s)
  ∧ ((10 - String.length s ≤ fuel)%nat → pad fuel s = pad 10 s)
  ∧ pad 10 (pad 10 s) = pad 10 s
  ∧ (String.length s = String.length t → pad 10 s = pad 10 t → s = t).
Proof.
  assert (∀ u, pad 10 u = zeros (10 - String.length u) +:+ u) as Hpad
    by (intros u; apply pad_zeros; lia).
  assert (String.length (pad 10 s) = (String.length s `max` 10)%nat) as Hlen
    by (rewrite Hpad, zeros_length; lia).
  split; [done|]. split; [done|]. split; [|split; [|split]].
  - intros Hs. rewrite Hpad. by replace (10 - String.length s)%nat with 0%nat by lia.
  - intros Hfuel. by rewrite Hpad, pad_zeros.
  - rewrite (Hpad (pad 10 s)), Hlen.
    by replace (10 - String.length s `max` 10)%nat with 0%nat by lia.
  - intros Hst. rewrite !Hpad, Hst. generalize (10 - String.length t)%nat.
    intros n. induction n as [|n IH]; [done|]. rewrite !zeros_app_S.
    intros [= Heq]. by apply IH.
Qed.

(** X13 — the account numbers the loop makes. While [i + 1] does not
    overflow, [std::to_string(i + 1)] padded is exactly ten characters
    long, all of them decimal digits (so the bucketed store accepts it),
    it is the decimal numeral of [i + 1] behind zeros, and no two rounds
    of the loop make the same number. *)
Theorem X13_padded_number (i j : Z) :
  0 ≤ i < INT_MAX → 0 ≤ j < INT_MAX →
  String.length (padded_number i) = 10%nat
  ∧ digits_only (padded_number i) = true
  ∧ digit_leading (padded_number i)
  ∧ padded_number i = zeros (10 - String.length (pretty (i + 1)%Z)) +:+ pretty (i + 1)
  ∧ (padded_number i = padded_number j ↔ i = j).
Proof.
  intros Hi Hj. destruct (padded_number_zeros i Hi) as (Hlead & Hdigits & Hlen & Hpad).
  split; [rewrite Hpad, zeros_length; lia|].
  split; [by rewrite Hpad, zeros_digits_only|].
  split; [rewrite Hpad; by apply zeros_leading|].
  split; [done|].
  split; [by apply padded_number_inj|by intros ->].
Qed.

(** X13 at a concrete input: the first and the last round of the driver's
    loop. *)
Lemma X13_padded_number_witness :
  0 ≤ 0 < INT_MAX ∧ 0 ≤ 999999 < INT_MAX
  ∧ String.length (padded_number 0) = 10%nat
  ∧ (padded_number 0 = padded_number 999999 ↔ 0 = 999999).
Proof.
  assert (0 ≤ 0 < INT_MAX) as Hi by (by vm_compute).
  assert (0 ≤ 999999 < INT_MAX) as Hj by (by vm_compute).
  split; [done|]. split; [done|].
  destruct (X13_padded_number 0 999999 Hi Hj) as (Hlen & _ & _ & _ & Hinj).
  split; [exact Hlen|exact Hinj].
Defined.

(** ** The loop of the driver *)

Lemma elem_of_driver_numbers (count : nat) (k : string) :
  k ∈ driver_numbers count 0
  ↔ ∃ j : nat, (j < count)%nat ∧ k = padded_number (Z.of_nat j).
Proof.
  unfold driver_numbers. rewrite list_elem_of_fmap. split.
  - intros (j & -> & Hj%elem_of_seq). exists j. split; [lia|]. by rewrite Z.add_0_l.
  - intros (j & Hj & ->). exists j. rewrite Z.add_0_l. split; [done|].
    apply elem_of_seq. lia.
Qed.

Lemma driver_numbers_length (count : nat) (i : Z) :
  length (driver_numbers count i) = count.
Proof. unfold driver_numbers. by rewrite length_fmap, length_seq. Qed.

Lemma driver_numbers_long (count : nat) (k : string) :
  k ∈ driver_numbers count 0 → (10 ≤ String.length k)%nat.
Proof.
  intros (j & _ & ->)%elem_of_driver_numbers. apply padded_number_length.
Qed.

Lemma driver_numbers_digits (count : nat) :
  Z.of_nat count ≤ INT_MAX → Forall digit_leading (driver_numbers count 0).
Proof.
  intros Hcount. apply Forall_forall. intros k (j & Hj & ->)%elem_of_driver_numbers.
  destruct (padded_number_zeros (Z.of_nat j)) as (Hlead & _ & _ & ->); [lia|].
  by apply zeros_leading.
Qed.

Lemma driver_numbers_NoDup (count : nat) :
  Z.of_nat count ≤ INT_MAX → NoDup (driver_numbers count 0).
Proof.
  intros Hcount. unfold driver_numbers.
  apply NoDup_fmap_2_strong; [|apply NoDup_seq].
  intros j j' Hj%elem_of_seq Hj'%elem_of_seq. rewrite !Z.add_0_l.
  intros Heq%padded_number_inj; lia.
Qed.

(** X14 — the loop [for (int i = 0; i < AntalAccounts; i++)], for any
    value of the constant. Started on an empty store of any of the three
    kinds, the loop returns, having handed [AntalAccounts] pairwise
    distinct numbers to the bank; the map then holds that many entries;
    the lookup for the number of round [j] returns the record with that
    number and balance 0 in all three stores; and a number of fewer than
    ten characters is reported absent by the map and the sorted store,
    and by the bucketed store if it leads with a digit. *)
Theorem X14_driver_loop `{StdSort} (count j : nat) (k : string) :
  Z.of_nat count ≤ INT_MAX →
  (length (driver_numbers count 0) = count ∧ NoDup (driver_numbers count 0))
  ∧ (outcome (initialize count 0) MapAccountStorage.empty = Ok tt
     ∧ outcome (initialize count 0) BinarySearchStorage.empty = Ok tt
     ∧ outcome (initialize count 0) DistributedVectorAccountStorage.empty = Ok tt)
  ∧ size (state_after (initialize count 0) MapAccountStorage.empty) = count
  ∧ ((j < count)%nat →
     lookup_account (padded_number (Z.of_nat j))
       (state_after (initialize count 0) MapAccountStorage.empty)
     = Ok (Some (BankAccount_of_string (padded_number (Z.of_nat j))))
     ∧ lookup_account (padded_number (Z.of_nat j))
         (state_after (initialize count 0) BinarySearchStorage.empty)
       = Ok (Some (BankAccount_of_string (padded_number (Z.of_nat j))))
     ∧ lookup_account (padded_number (Z.of_nat j))
         (state_after (initialize count 0) DistributedVectorAccountStorage.empty)
       = Ok (Some (BankAccount_of_string (padded_number (Z.of_nat j)))))
  ∧ ((String.length k < 10)%nat →
     lookup_account k (state_after (initialize count 0) MapAccountStorage.empty)
     = Ok None
     ∧ lookup_account k (state_after (initialize count 0) BinarySearchStorage.empty)
       = Ok None
     ∧ (digit_leading k →
        lookup_account k
          (state_after (initialize count 0) DistributedVectorAccountStorage.empty)
        = Ok None)).
Proof.
  intros Hcount.
  pose proof (driver_numbers_length count 0) as Hlen.
  pose proof (driver_numbers_NoDup count Hcount) as Hnodup.
  pose proof (driver_numbers_digits count Hcount) as Hdigits.
  assert (Z.of_nat (length (driver_numbers count 0)) ≤ INT_MAX) as Hsize
    by (by rewrite Hlen).
  unfold outcome, state_after. rewrite !initialize_bank_fill.
  fold (outcome (bank_fill (driver_numbers count 0)) MapAccountStorage.empty).
  fold (outcome (bank_fill (driver_numbers count 0)) BinarySearchStorage.empty).
  fold (outcome (bank_fill (driver_numbers count 0)) DistributedVectorAccountStorage.empty).
  fold (state_after (bank_fill (driver_numbers count 0)) MapAccountStorage.empty).
  fold (state_after (bank_fill (driver_numbers count 0)) BinarySearchStorage.empty).
  fold (state_after (bank_fill (driver_numbers count 0)) DistributedVectorAccountStorage.empty).
  split; [done|]. split; [|split; [|split]].
  - split; [apply (map_bank_fill_lookup _ "")|].
    split; [by apply (bs_bank_fill_lookup _ "")|].
    apply (dv_bank_fill_lookup _ "0"); [done|by eexists].
  - destruct (bank_fill_run (driver_numbers count 0) MapAccountStorage.empty) as [-> _].
    unfold state_after. rewrite map_addAccounts_run. cbn [fst].
    rewrite <-size_dom, map_adds_dom. unfold MapAccountStorage.empty.
    rewrite dom_empty_L, (right_id_L ∅ (∪)), <-list_fmap_compose.
    change (getAccountNumber ∘ BankAccount_of_string) with (@id string).
    by rewrite list_fmap_id, size_list_to_set.
  - intros Hj.
    assert (padded_number (Z.of_nat j) ∈ driver_numbers count 0) as Hin
      by (apply elem_of_driver_numbers; eauto).
    assert (digit_leading (padded_number (Z.of_nat j))) as Hlead
      by (by eapply Forall_forall in Hdigits).
    destruct (map_bank_fill_lookup (driver_numbers count 0) (padded_number (Z.of_nat j)))
      as [_ ->].
    destruct (bs_bank_fill_lookup (driver_numbers count 0) (padded_number (Z.of_nat j))
                Hsize) as [_ ->].
    destruct (dv_bank_fill_lookup (driver_numbers count 0) (padded_number (Z.of_nat j))
                Hdigits Hlead) as [_ ->].
    by rewrite decide_True by done.
  - intros Hk.
    assert (k ∉ driver_numbers count 0) as Hout
      by (intros Hin%driver_numbers_long; lia).
    destruct (map_bank_fill_lookup (driver_numbers count 0) k) as [_ ->].
    destruct (bs_bank_fill_lookup (driver_numbers count 0) k Hsize) as [_ ->].
    rewrite decide_False by done. split; [done|]. split; [done|].
    intros Hlead.
    destruct (dv_bank_fill_lookup (driver_numbers count 0) k Hdigits Hlead) as [_ ->].
    by rewrite decide_False by done.
Qed.

(** X14 at a concrete input: three rounds, and the lookup for the number
    of the last one in the sorted store. *)
Lemma X14_driver_loop_witness :
  Z.of_nat 3 ≤ INT_MAX
  ∧ (2 < 3)%nat
  ∧ @lookup_account _ (@BinarySearchStorage.storage merge_StdSort)
      (padded_number (Z.of_nat 2))
      (state_after (@initialize _ (@BinarySearchStorage.storage merge_StdSort) 3 0)
         BinarySearchStorage.empty)
    = Ok (Some (BankAccount_of_string (padded_number (Z.of_nat 2)))).
Proof.
  assert (Z.of_nat 3 ≤ INT_MAX) as Hcount by (by vm_compute).
  assert (2 < 3)%nat as Hj by lia.
  split; [done|]. split; [done|].
  destruct (@X14_driver_loop merge_StdSort 3 2 "" Hcount) as (_ & _ & _ & Hfound & _).
  destruct (Hfound Hj) as (_ & Hbs & _). exact Hbs.
Defined.

(** ** The driver from start to end *)

(** [main] in terms of what the lookups see. *)
Lemma main_run `{IAccountStorage St} (storage : St) :
  main storage
  = match outcome (initialize (Z.to_nat AntalAccounts) 0) storage with
    | Fault e => Faulted e
    | Ok _ =>
        let s0 := state_after (initialize (Z.to_nat AntalAccounts) 0) storage in
        let s1 := state_after (findAccount sFirst) s0 in
        let s2 := state_after (findAccount sLast) s1 in
        match lookup_account sFirst s0 with
        | Fault e => Faulted e
        | Ok None => BadDereference
        | Ok (Some first) =>
            match lookup_account sLast s1 with
            | Fault e => Faulted e
            | Ok None => BadDereference
            | Ok (Some last) =>
                match outcome (findAccount sNotFound) s2 with
                | Fault e => Faulted e
                | Ok _ => Returned (getAccountNumber first) (getAccountNumber last)
                end
            end
        end
    end.
Proof.
  unfold main, outcome, state_after, lookup_account, Bank.getAccount,
    arrow_getAccountNumber.
  generalize (Z.to_nat AntalAccounts). intros count.
  destruct (initialize count 0 storage) as [s0 [[]|e]]; cbn [fst snd]; [|reflexivity].
  destruct (findAccount sFirst s0) as [s1 [[p1|]|e]]; cbn [fst snd mbind option_bind];
    [|reflexivity..].
  destruct (deref s1 p1) as [first|]; cbn [mbind option_bind]; [|reflexivity].
  destruct (findAccount sLast s1) as [s2 [[p2|]|e]]; cbn [fst snd mbind option_bind];
    [|reflexivity..].
  destruct (deref s2 p2) as [last|]; cbn [mbind option_bind]; [|reflexivity].
  by destruct (findAccount sNotFound s2) as [s3 [p3|e]].
Qed.

Lemma main_numbers :
  Z.of_nat (Z.to_nat AntalAccounts) ≤ INT_MAX
  ∧ sFirst ∈ driver_numbers (Z.to_nat AntalAccounts) 0
  ∧ sLast ∈ driver_numbers (Z.to_nat AntalAccounts) 0
  ∧ (sNotFound ∉ driver_numbers (Z.to_nat AntalAccounts) 0)
  ∧ sLast = "0001000000"%string.
Proof.
  assert (sFirst = padded_number 0) as Hfirst by (by vm_compute).
  assert (sLast = padded_number 999999) as Hlast by (by vm_compute).
  assert (sLast = "0001000000"%string) as Hlit by (by vm_compute).
  split; [unfold AntalAccounts, INT_MAX; lia|].
  split.
  { apply elem_of_driver_numbers. exists (Z.to_nat 0).
    split; [unfold AntalAccounts; lia|]. by rewrite Z2Nat.id. }
  split.
  { apply elem_of_driver_numbers. exists (Z.to_nat 999999).
    split; [unfold AntalAccounts; lia|]. rewrite Z2Nat.id by lia. exact Hlast. }
  split; [|exact Hlit].
  intros Hin%driver_numbers_long. revert Hin. unfold sNotFound.
  cbn [String.length]. lia.
Qed.

(** X15 — [main] from start to end. On the map store and on the sorted
    store the loop adds the million records, the first two lookups return
    the records "0000000001" and "0001000000", whose numbers are printed,
    the lookup for "notfound" returns, and [main] returns 0. On the
    bucketed store, the one [main] declares, the loop and the first two
    lookups go the same way, and the lookup for "notfound" subscripts the
    array of ten vectors with 62: [main] does not reach its return. *)
Theorem X15_main `{StdSort} :
  main MapAccountStorage.empty = Returned "0000000001" "0001000000"
  ∧ main BinarySearchStorage.empty = Returned "0000000001" "0001000000"
  ∧ main DistributedVectorAccountStorage.empty = Faulted (OutOfRange 62).
Proof.
  destruct main_numbers as (Hcount & Hfirst & Hlast & Hnone & Hlit).
  pose proof (driver_numbers_digits _ Hcount) as Hdigits.
  rewrite <-(driver_numbers_length (Z.to_nat AntalAccounts) 0) in Hcount.
  rewrite !main_run. unfold outcome, state_after. rewrite !initialize_bank_fill.
  revert Hcount Hdigits Hfirst Hlast Hnone.
  generalize (driver_numbers (Z.to_nat AntalAccounts) 0).
  intros numbers Hcount Hdigits Hfirst Hlast Hnone.
  assert (Returned (getAccountNumber (BankAccount_of_string sFirst))
            (getAccountNumber (BankAccount_of_string sLast))
          = Returned "0000000001" "0001000000") as Hprinted
    by (cbn [getAccountNumber BankAccount_of_string accountNumber]; by rewrite Hlit).
  split; [|split].
  - destruct (map_bank_fill_lookup numbers sFirst) as [Hrun Hlookup].
    unfold outcome, state_after in Hrun, Hlookup. rewrite Hrun.
    cbn zeta. rewrite !map_findAccount_run. cbn [fst snd].
    rewrite Hlookup, decide_True by exact Hfirst.
    destruct (map_bank_fill_lookup numbers sLast) as [_ Hlookup'].
    unfold state_after in Hlookup'. rewrite Hlookup', decide_True by exact Hlast.
    exact Hprinted.
  - assert (bank_fill numbers BinarySearchStorage.empty
            = (BankAccount_of_string <$> numbers, Ok tt)) as ->.
    { destruct (bank_fill_run numbers BinarySearchStorage.empty) as [Hs Ho].
      unfold state_after, outcome in Hs, Ho. rewrite bs_adds_state in Hs, Ho.
      destruct (bank_fill numbers BinarySearchStorage.empty) as [s o].
      cbn [fst snd] in Hs, Ho. by rewrite Hs, Ho. }
    cbn [fst snd]. cbn zeta.
    set (adds := BankAccount_of_string <$> numbers).
    assert ((findAccount sFirst adds).1 = std_sort adds) as -> by reflexivity.
    assert ((findAccount sLast (std_sort adds)).1 = std_sort (std_sort adds)) as ->
      by reflexivity.
    rewrite (bs_permuted_bank_lookup numbers sFirst adds) by done.
    rewrite decide_True by exact Hfirst.
    rewrite (bs_permuted_bank_lookup numbers sLast (std_sort adds))
      by (done || apply std_sort_permutation).
    rewrite decide_True by exact Hlast.
    destruct (bs_lookup_account_absent sNotFound (std_sort (std_sort adds)))
      as [-> _].
    + unfold adds. by rewrite !std_sort_length, length_fmap.
    + intros a. rewrite !std_sort_elem_of. unfold adds.
      intros (k' & -> & Hk')%list_elem_of_fmap Heq. cbn in Heq. by rewrite Heq in Hk'.
    + exact Hprinted.
  - assert (digit_leading sFirst) as Hd1
      by exact (proj1 (Forall_forall _ _) Hdigits _ Hfirst).
    assert (digit_leading sLast) as Hd2
      by exact (proj1 (Forall_forall _ _) Hdigits _ Hlast).
    destruct (getRef_digit _ Hd1) as (ref1 & Href1 & _).
    destruct (getRef_digit _ Hd2) as (ref2 & Href2 & _).
    destruct (dv_bank_fill_lookup numbers sFirst Hdigits Hd1) as [Hrun Hlookup].
    destruct (dv_bank_fill_lookup numbers sLast Hdigits Hd2) as [_ Hlookup'].
    unfold outcome, state_after in Hrun, Hlookup, Hlookup'. rewrite Hrun.
    cbn zeta. rewrite (dv_findAccount_run _ _ _ Href1). cbn [fst].
    rewrite (dv_findAccount_run _ _ _ Href2). cbn [fst].
    rewrite Hlookup, decide_True by exact Hfirst.
    rewrite Hlookup', decide_True by exact Hlast.
    by rewrite (dv_findAccount_fault _ sNotFound (OutOfRange 62)).
Qed.

(** ** How long the binary search runs *)




